(** * actual-mcp-server: the backend-connection guard, the tool handlers
      and the session router, embedded and checked against their
      specification.

    - [Guard] : src/actualConnection.ts (connectToActual), as an
      interleaving of the runs of its invocations between their awaits;
    - [Tools] : the accounts.list and transactions.create tools and the
      ToolDefinition interface;
    - [Http]  : src/server/httpServer.ts (startHttpServer): the handlers
      of POST, GET and DELETE over the map of transports, and the SIGINT
      handler.

    The modules [GuardSpec], [ToolsSpec] and [HttpSpec] hold the
    statements. *)

From Stdlib Require Import ZArith.
From stdpp Require Import gmap strings list fin_maps.

Open Scope string_scope.

(** JavaScript truthiness of a value of type [string | undefined]:
    [undefined] and the empty string are falsy. *)
Definition truthy (s : option string) : bool :=
  match s with
  | Some s => negb (String.eqb s "")
  | None => false
  end.

(* ===================================================================== *)
(** * The backend-connection guard (actualConnection.ts)                  *)
(* ===================================================================== *)

Module Guard.

(** A value raised by [throw] or carried by a rejected promise: an [Error]
    object (kept by its message) or any other value (kept by what
    [String(err)] prints). *)
Inductive thrown :=
| ThrownError (msg : string)
| ThrownOther (printed : string).

(** [err instanceof Error ? err : new Error(String(err))] (line 48). *)
Definition as_error (t : thrown) : string :=
  match t with
  | ThrownError msg => msg
  | ThrownOther printed => printed
  end.

(** What the synchronous prefix of the [try] block reads from the process:
    the three environment variables, whether [new URL(SERVER_URL)] throws,
    and whether making the data directory throws.  [connectToActual] does
    not write any of it, and it is kept fixed while the calls run. *)
Record Env := {
  ACTUAL_SERVER_URL : option string;
  ACTUAL_PASSWORD : option string;
  ACTUAL_BUDGET_SYNC_ID : option string;
  url_throws : option thrown;
  mkdir_throws : option thrown
}.

(** Lines 23-35: everything the [try] block does before [api.init];
    [Some t] when it throws [t]. *)
Definition prechecks (e : Env) : option thrown :=
  if negb (truthy (ACTUAL_SERVER_URL e)) then Some (ThrownError "ACTUAL_SERVER_URL not set")
  else if negb (truthy (ACTUAL_PASSWORD e)) then Some (ThrownError "ACTUAL_PASSWORD not set")
  else if negb (truthy (ACTUAL_BUDGET_SYNC_ID e)) then Some (ThrownError "ACTUAL_BUDGET_SYNC_ID not set")
  else match url_throws e with
       | Some t => Some t
       | None => mkdir_throws e
       end.

(** The three module-level variables (lines 9-11). *)
Record Flags := {
  initialized : bool;
  initializing : bool;
  initializationError : option string
}.

Definition flags0 : Flags :=
  {| initialized := false; initializing := false; initializationError := None |}.

(** Where one invocation of [connectToActual] stands.  An [async] function
    runs without interruption from one [await] to the next, so these are
    all the points at which another invocation can be interleaved. *)
Inductive caller :=
| Fresh            (* not called yet *)
| Polling          (* line 16, waiting for the 100 ms timer *)
| AwaitInit        (* line 37, waiting for api.init *)
| AwaitDownload    (* line 43, waiting for api.downloadBudget *)
| Returned         (* promise fulfilled *)
| Threw (e : string). (* promise rejected with this error *)

Record World := {
  env : Env;
  flags : Flags;
  callers : list caller;
  init_calls : nat;       (* how often api.init was called *)
  download_calls : nat    (* how often api.downloadBudget was called *)
}.

Definition init_world (e : Env) (n : nat) : World :=
  {| env := e; flags := flags0; callers := replicate n Fresh;
     init_calls := 0; download_calls := 0 |}.

Definition set_caller (i : nat) (t : caller) (w : World) : World :=
  {| env := env w; flags := flags w; callers := <[i:=t]> (callers w);
     init_calls := init_calls w; download_calls := download_calls w |}.

Definition set_flags (f : Flags) (w : World) : World :=
  {| env := env w; flags := f; callers := callers w;
     init_calls := init_calls w; download_calls := download_calls w |}.

(** Line 20. *)
Definition start_initializing (f : Flags) : Flags :=
  {| initialized := initialized f; initializing := true;
     initializationError := initializationError f |}.

(** Line 45. *)
Definition mark_initialized (f : Flags) : Flags :=
  {| initialized := true; initializing := initializing f;
     initializationError := initializationError f |}.

(** Line 48. *)
Definition capture (t : thrown) (f : Flags) : Flags :=
  {| initialized := initialized f; initializing := initializing f;
     initializationError := Some (as_error t) |}.

(** Line 52. *)
Definition finally_block (f : Flags) : Flags :=
  {| initialized := initialized f; initializing := false;
     initializationError := initializationError f |}.

(** The [catch] block followed by [finally]: invocation [i] rejects with
    the captured error. *)
Definition fail_with (i : nat) (t : thrown) (w : World) : World :=
  set_caller i (Threw (as_error t))
    (set_flags (finally_block (capture t (flags w))) w).

(** The end of the [try] block followed by [finally]. *)
Definition succeed (i : nat) (w : World) : World :=
  set_caller i Returned
    (set_flags (finally_block (mark_initialized (flags w))) w).

(** Lines 14-37: the call itself, up to its first [await] (or to its end). *)
Definition enter (i : nat) (w : World) : World :=
  if initialized (flags w) then set_caller i Returned w
  else if initializing (flags w) then set_caller i Polling w
  else
    let w1 := set_flags (start_initializing (flags w)) w in
    match prechecks (env w1) with
    | Some t => fail_with i t w1
    | None =>
        set_caller i AwaitInit
          {| env := env w1; flags := flags w1; callers := callers w1;
             init_calls := S (init_calls w1);
             download_calls := download_calls w1 |}
    end.

(** Lines 16-18: the timer fired. *)
Definition wake (i : nat) (w : World) : World :=
  if initializing (flags w) then w
  else match initializationError (flags w) with
       | Some e => set_caller i (Threw e) w
       | None => set_caller i Returned w
       end.

(** Lines 37-43: [api.init] settled. *)
Definition init_settled (i : nat) (r : option thrown) (w : World) : World :=
  match r with
  | Some t => fail_with i t w
  | None =>
      set_caller i AwaitDownload
        {| env := env w; flags := flags w; callers := callers w;
           init_calls := init_calls w;
           download_calls := S (download_calls w) |}
  end.

(** Lines 43-53: [api.downloadBudget] settled. *)
Definition download_settled (i : nat) (r : option thrown) (w : World) : World :=
  match r with
  | Some t => fail_with i t w
  | None => succeed i w
  end.

(** What the event loop can run next. *)
Inductive event :=
| Call (i : nat)
| Tick (i : nat)
| InitSettled (i : nat) (r : option thrown)
| DownloadSettled (i : nat) (r : option thrown).

Definition caller_eqb (a b : caller) : bool :=
  match a, b with
  | Fresh, Fresh | Polling, Polling | AwaitInit, AwaitInit
  | AwaitDownload, AwaitDownload | Returned, Returned => true
  | Threw x, Threw y => String.eqb x y
  | _, _ => false
  end.

Definition at_point (i : nat) (t : caller) (w : World) : bool :=
  match callers w !! i with
  | Some t' => caller_eqb t' t
  | None => false
  end.

(** One uninterrupted run of one invocation; [None] when the event is not
    enabled (the invocation is not waiting for it). *)
Definition step (ev : event) (w : World) : option World :=
  match ev with
  | Call i => if at_point i Fresh w then Some (enter i w) else None
  | Tick i => if at_point i Polling w then Some (wake i w) else None
  | InitSettled i r =>
      if at_point i AwaitInit w then Some (init_settled i r w) else None
  | DownloadSettled i r =>
      if at_point i AwaitDownload w then Some (download_settled i r w) else None
  end.

Fixpoint run (evs : list event) (w : World) : option World :=
  match evs with
  | [] => Some w
  | ev :: rest =>
      match step ev w with
      | Some w' => run rest w'
      | None => None
      end
  end.

Definition is_call (ev : event) : bool :=
  match ev with Call _ => true | _ => false end.

(** The events that end a handshake. *)
Definition ends_handshake (ev : event) : bool :=
  match ev with
  | InitSettled _ (Some _) | DownloadSettled _ _ => true
  | _ => false
  end.

(** A schedule of concurrent calls: every call is issued before the
    handshake in flight has ended. *)
Fixpoint concurrent (evs : list event) : bool :=
  match evs with
  | [] => true
  | ev :: rest =>
      if ends_handshake ev then forallb (fun e => negb (is_call e)) rest
      else concurrent rest
  end.

Definition finished (t : caller) : bool :=
  match t with Returned | Threw _ => true | _ => false end.

(** ** Vocabulary of the statements about the guard *)

(** A process whose environment passes every pre-check. *)
Definition env_ok : Env :=
  {| ACTUAL_SERVER_URL := Some "http://localhost:5006";
     ACTUAL_PASSWORD := Some "secret";
     ACTUAL_BUDGET_SYNC_ID := Some "budget-1";
     url_throws := None;
     mkdir_throws := None |}.

(** A process without [ACTUAL_PASSWORD]. *)
Definition env_no_password : Env :=
  {| ACTUAL_SERVER_URL := Some "http://localhost:5006";
     ACTUAL_PASSWORD := None;
     ACTUAL_BUDGET_SYNC_ID := Some "budget-1";
     url_throws := None;
     mkdir_throws := None |}.

(** The stages of a run of concurrent calls. *)
Inductive phase :=
| PreFail            (* the pre-checks throw: no handshake ever starts *)
| Idle               (* nobody has called yet *)
| InFlight (l : nat) (* invocation [l] runs the handshake *)
| Ready              (* the handshake succeeded *)
| Failed (e : string). (* the handshake failed with [e] *)

Definition holds (ph : phase) (w : World) : Prop :=
  match ph with
  | PreFail =>
      ∃ t0, prechecks (env w) = Some t0 ∧
      initialized (flags w) = false ∧ initializing (flags w) = false ∧
      init_calls w = 0 ∧ download_calls w = 0 ∧
      ∀ j t, callers w !! j = Some t →
        t = Fresh ∨
        (t = Threw (as_error t0) ∧
         initializationError (flags w) = Some (as_error t0))
  | Idle =>
      prechecks (env w) = None ∧ flags w = flags0 ∧
      init_calls w = 0 ∧ download_calls w = 0 ∧
      ∀ j t, callers w !! j = Some t → t = Fresh
  | InFlight l =>
      prechecks (env w) = None ∧
      flags w = {| initialized := false; initializing := true;
                   initializationError := None |} ∧
      init_calls w = 1 ∧ (download_calls w ≤ 1)%nat ∧
      ∀ j t, callers w !! j = Some t →
        (j = l ∧ (t = AwaitInit ∧ download_calls w = 0 ∨
                  t = AwaitDownload ∧ download_calls w = 1)) ∨
        (j ≠ l ∧ (t = Fresh ∨ t = Polling))
  | Ready =>
      flags w = {| initialized := true; initializing := false;
                   initializationError := None |} ∧
      init_calls w = 1 ∧ download_calls w = 1 ∧
      ∀ j t, callers w !! j = Some t →
        t = Fresh ∨ t = Polling ∨ t = Returned
  | Failed e =>
      flags w = {| initialized := false; initializing := false;
                   initializationError := Some e |} ∧
      init_calls w = 1 ∧ (download_calls w ≤ 1)%nat ∧
      ∀ j t, callers w !! j = Some t →
        t = Fresh ∨ t = Polling ∨ t = Threw e
  end.

Definition is_failed (ph : phase) : bool :=
  match ph with Failed _ => true | _ => false end.

(** No call is issued any more. *)
Definition quiet (evs : list event) : bool :=
  forallb (fun e => negb (is_call e)) evs.

(** Which schedules may follow a stage: after a failed handshake no call
    is left to be issued. *)
Definition allowed (ph : phase) (evs : list event) : Prop :=
  if is_failed ph then quiet evs = true else concurrent evs = true.

(** What every stage guarantees:
    - [api.init] and [api.downloadBudget] were each called at most once;
    - any two callers that have finished finished alike;
    - a caller that returned did so on a handshake that succeeded;
    - a caller that threw threw the error the guard has captured;
    - once nothing is in flight, a waiting caller finishes at its next
      timer tick. *)
Definition one_handshake_one_outcome (w : World) : Prop :=
  (init_calls w ≤ 1)%nat ∧ (download_calls w ≤ 1)%nat ∧
  (∀ i j a b, callers w !! i = Some a → callers w !! j = Some b →
     finished a = true → finished b = true → a = b) ∧
  (∀ i, callers w !! i = Some Returned →
     initialized (flags w) = true ∧ init_calls w = 1 ∧ download_calls w = 1) ∧
  (∀ i e, callers w !! i = Some (Threw e) →
     initialized (flags w) = false ∧ initializationError (flags w) = Some e) ∧
  (initializing (flags w) = false →
   ∀ i, callers w !! i = Some Polling →
     ∃ w' t, step (Tick i) w = Some w' ∧ callers w' !! i = Some t ∧
             finished t = true).

(** Until the guard is ready nobody has returned, and somebody is waiting
    only if an attempt is in flight or an error has been captured. *)
Definition not_ready_yet (w : World) : Prop :=
  (∀ j, callers w !! j ≠ Some Returned) ∧
  ((∀ j, callers w !! j ≠ Some Polling) ∨
   initializing (flags w) = true ∨
   is_Some (initializationError (flags w))).

Definition sound (w : World) : Prop :=
  initialized (flags w) = true ∨ not_ready_yet w.

(** C2 as the specification states it: once a call has thrown and none has
    returned, a new call throws the captured error and neither backend
    operation is called for it. *)
Definition failed_is_terminal : Prop :=
  ∀ (e : Env) (n : nat) (evs : list event) (w w' : World) (i j : nat) (err : string),
    run evs (init_world e n) = Some w →
    callers w !! j = Some (Threw err) →
    (∀ k, callers w !! k ≠ Some Returned) →
    step (Call i) w = Some w' →
    (∃ err', initializationError (flags w) = Some err' ∧
             callers w' !! i = Some (Threw err')) ∧
    init_calls w' = init_calls w ∧ download_calls w' = download_calls w.

(** ** Counting callers and building schedules *)

(** How many callers satisfy [p]. *)
Fixpoint count (p : caller -> bool) (l : list caller) : nat :=
  match l with
  | [] => 0
  | t :: rest => (if p t then 1 else 0) + count p rest
  end.

(** Between [api.init] and the end of the [try] block. *)
Definition in_flight (t : caller) : bool :=
  match t with AwaitInit | AwaitDownload => true | _ => false end.

Definition awaiting_init (t : caller) : bool :=
  match t with AwaitInit => true | _ => false end.

Definition awaiting_download (t : caller) : bool :=
  match t with AwaitDownload => true | _ => false end.

(** The caller has called. *)
Definition called (t : caller) : bool :=
  match t with Fresh => false | _ => true end.

(** Callers [from], [from + 1], ..., [from + k - 1] call one after the
    other, and their timers fire one after the other. *)
Definition calls (from k : nat) : list event := Call <$> seq from k.
Definition ticks (from k : nat) : list event := Tick <$> seq from k.

(** The three messages of lines 28-30. *)
Definition not_set_messages : list string :=
  ["ACTUAL_SERVER_URL not set"; "ACTUAL_PASSWORD not set";
   "ACTUAL_BUDGET_SYNC_ID not set"].

(** The number of callers between [api.init] and the end of their [try]
    block is what [initializing] says. *)
Definition exclusive (w : World) : Prop :=
  count in_flight (callers w) = if initializing (flags w) then 1 else 0.

(** The bookkeeping of backend calls: [api.downloadBudget] is called only
    after an [api.init] that was awaited, [api.init] only by a caller that
    has called, and the guard is ready or a caller awaits the download only
    after [api.downloadBudget] was called. *)
Definition accounted (w : World) : Prop :=
  (download_calls w + count awaiting_init (callers w) ≤ init_calls w)%nat ∧
  (init_calls w ≤ count called (callers w))%nat ∧
  (initialized (flags w) = true ∨
   (0 < count awaiting_download (callers w))%nat →
   (1 ≤ download_calls w)%nat).

(** The captured error is the error of a caller that has thrown, and a
    caller has thrown only if an error is captured. *)
Definition remembered (w : World) : Prop :=
  (∀ err, initializationError (flags w) = Some err →
     ∃ i, callers w !! i = Some (Threw err)) ∧
  (∀ i err, callers w !! i = Some (Threw err) →
     is_Some (initializationError (flags w))).

Definition with_callers (l : list caller) (w : World) : World :=
  {| env := env w; flags := flags w; callers := l;
     init_calls := init_calls w; download_calls := download_calls w |}.

(** How the handshake that caller 0 runs ends. *)
Inductive handshake :=
| InitFails (t : thrown)
| DownloadFails (t : thrown)
| Succeeds.

Definition settles (h : handshake) : list event :=
  match h with
  | InitFails t => [InitSettled 0 (Some t)]
  | DownloadFails t => [InitSettled 0 None; DownloadSettled 0 (Some t)]
  | Succeeds => [InitSettled 0 None; DownloadSettled 0 None]
  end.

Definition verdict (h : handshake) : caller :=
  match h with
  | InitFails t | DownloadFails t => Threw (as_error t)
  | Succeeds => Returned
  end.

(** The world in which a burst of callers ends. *)
Definition settled_world (e : Env) (n : nat) (h : handshake) : World :=
  {| env := e;
     flags := {| initialized := match h with Succeeds => true | _ => false end;
                 initializing := false;
                 initializationError :=
                   match h with
                   | InitFails t | DownloadFails t => Some (as_error t)
                   | Succeeds => None
                   end |};
     callers := replicate n (verdict h);
     init_calls := 1;
     download_calls := match h with InitFails _ => 0 | _ => 1 end |}.

(** What the events of a schedule [evs], run from the not-started state in
    a process with environment [e], have decided by the time the world is
    [w]:
    - a caller that has called is past its call, and if the pre-checks
      pass [api.init] was called exactly once, while if they throw every
      caller that has called has thrown what they throw;
    - once [api.init] has resolved, [api.downloadBudget] was called
      exactly once;
    - if the handshake of caller [l] succeeded, [l] has returned, the
      guard is ready, nobody has thrown, and every waiting caller returns
      at its next timer tick;
    - if the handshake of caller [l] failed with [t0], [l] has thrown the
      error made of [t0], the guard holds that error, nobody has returned
      or thrown anything else, and every waiting caller throws that error
      at its next timer tick. *)
Definition handshake_decides (e : Env) (evs : list event) (w : World) : Prop :=
  (∀ i, Call i ∈ evs → ∃ t, callers w !! i = Some t ∧ called t = true) ∧
  (prechecks e = None → (∃ i, Call i ∈ evs) → init_calls w = 1) ∧
  (∀ t0 i, prechecks e = Some t0 → Call i ∈ evs →
     callers w !! i = Some (Threw (as_error t0)) ∧ init_calls w = 0) ∧
  (∀ l, InitSettled l None ∈ evs → download_calls w = 1) ∧
  (∀ l, DownloadSettled l None ∈ evs →
     callers w !! l = Some Returned ∧
     flags w = {| initialized := true; initializing := false;
                  initializationError := None |} ∧
     (∀ i t, callers w !! i = Some t → t = Fresh ∨ t = Polling ∨ t = Returned) ∧
     (∀ i, callers w !! i = Some Polling →
        step (Tick i) w = Some (set_caller i Returned w))) ∧
  (∀ l t0, InitSettled l (Some t0) ∈ evs ∨ DownloadSettled l (Some t0) ∈ evs →
     callers w !! l = Some (Threw (as_error t0)) ∧
     flags w = {| initialized := false; initializing := false;
                  initializationError := Some (as_error t0) |} ∧
     (∀ i t, callers w !! i = Some t →
        t = Fresh ∨ t = Polling ∨ t = Threw (as_error t0)) ∧
     (∀ i, callers w !! i = Some Polling →
        step (Tick i) w = Some (set_caller i (Threw (as_error t0)) w))).

End Guard.

(* ===================================================================== *)
(** * Tool descriptors and their handlers (tools/*.ts, types/tool.d.ts)   *)
(* ===================================================================== *)

Module Tools.

(** The [any]-typed argument of a tool call. *)
#[local] Set Warnings "-register-all".
Inductive value :=
| VUndefined
| VNull
| VBool (b : bool)
| VNumber (n : Z)
| VString (s : string)
| VArray (items : list value)
| VObject (fields : list (string * value)).
#[local] Set Warnings "register-all".

(** JavaScript truthiness, as [args || {}] needs it. *)
Definition value_truthy (v : value) : bool :=
  match v with
  | VUndefined | VNull => false
  | VBool b => b
  | VNumber n => negb (Z.eqb n 0)
  | VString s => negb (String.eqb s "")
  | VArray _ | VObject _ => true
  end.

(** [a || b]. *)
Definition or_else (a b : value) : value := if value_truthy a then a else b.

(** The two zod schemas the tools are declared with. *)
Inductive schema :=
| ZObjectEmpty   (* z.object({}) *)
| ZAny.          (* z.any() *)

Inductive outcome (A : Type) :=
| Ok (a : A)
| Err (message : string).
Arguments Ok {A} a.
Arguments Err {A} message.

(** [schema.parse(v)]: [z.object({})] accepts exactly the plain objects and
    strips the keys it does not know, which are all of them; [z.any()]
    accepts everything unchanged. *)
Definition parse (s : schema) (v : value) : outcome value :=
  match s with
  | ZAny => Ok v
  | ZObjectEmpty =>
      match v with
      | VObject _ => Ok (VObject [])
      | _ => Err "Expected object"
      end
  end.

Definition violates (s : schema) (v : value) : bool :=
  match parse s v with Ok _ => false | Err _ => true end.

(** The operations of the finance library that the handlers delegate to. *)
Inductive backend_call :=
| GetAccounts                         (* getAccounts() of @actual-app/api *)
| AdapterGetAccounts (input : value)  (* adapter.getAccounts(input) *)
| AddTransactions (txs : list value). (* addTransactions([args]) *)

(** What is observed of a run: the backend operations performed and the
    handlers entered, latest first. *)
Record Trace := {
  backend_log : list backend_call;
  handler_log : list string
}.

Definition trace0 : Trace := {| backend_log := []; handler_log := [] |}.

(** The backend answers each operation with a value or a failure. *)
Definition Backend := backend_call -> outcome value.

(** Handlers are state-and-error computations over the trace. *)
Definition M (A : Type) := Trace -> outcome A * Trace.

Definition ret {A} (a : A) : M A := fun tr => (Ok a, tr).
Definition throw {A} (message : string) : M A := fun tr => (Err message, tr).
Definition bind {A B} (m : M A) (k : A -> M B) : M B :=
  fun tr =>
    match m tr with
    | (Ok a, tr') => k a tr'
    | (Err e, tr') => (Err e, tr')
    end.
Definition lift {A} (o : outcome A) : M A := fun tr => (o, tr).

Notation "'let*' x := m 'in' k" := (bind m (fun x => k))
  (at level 10, x name, m at level 100, k at level 200, only parsing).

(** [await] of one backend operation. *)
Definition perform (be : Backend) (c : backend_call) : M value :=
  fun tr =>
    (be c, {| backend_log := c :: backend_log tr; handler_log := handler_log tr |}).

(** The interface of types/tool.d.ts. *)
Record ToolDefinition := {
  name : string;
  description : string;
  inputSchema : schema;
  call : Backend -> value -> M value
}.

(** [{ result: x }]. *)
Definition envelope (x : value) : value := VObject [("result", x)].

(** tools/accounts_list.ts, first document: the arguments are ignored. *)
Definition accounts_list : ToolDefinition :=
  {| name := "actual.accounts.list";
     description := "List all accounts";
     inputSchema := ZObjectEmpty;
     call := fun be _args =>
       let* accounts := perform be GetAccounts in
       ret (envelope accounts) |}.

(** tools/accounts_list.ts, second document: the handler parses its
    arguments itself before it reaches the adapter. *)
Definition accounts_list_adapter : ToolDefinition :=
  {| name := "actual.accounts.list";
     description := "List all accounts";
     inputSchema := ZObjectEmpty;
     call := fun be args =>
       let* input := lift (parse ZObjectEmpty (or_else args (VObject []))) in
       let* result := perform be (AdapterGetAccounts input) in
       ret (envelope result) |}.

(** The transactions.create tool. *)
Definition transactions_create : ToolDefinition :=
  {| name := "actual.transactions.create";
     description := "Create a transaction";
     inputSchema := ZAny;
     call := fun be args =>
       let* tx := perform be (AddTransactions [args]) in
       ret (envelope tx) |}.

(** Entering a handler is recorded, then the handler runs. *)
Definition enter_handler (t : ToolDefinition) (be : Backend) (args : value) : M value :=
  fun tr =>
    call t be args
      {| backend_log := backend_log tr; handler_log := name t :: handler_log tr |}.

(** Modelled from the spec: the registry operation that invokes a tool
    (executeTool of ActualMCPConnection, reached from line 86 of the HTTP
    server) is not among the sources.  Section 4.3: "Invocation validates
    the supplied arguments against the schema (structural/type check, not
    business-rule validation), then calls the handler". *)
Definition invoke (t : ToolDefinition) (be : Backend) (args : value) : M value :=
  let* _validated := lift (parse (inputSchema t) args) in
  enter_handler t be args.

(** Modelled from the spec: the registry maps a tool name to its
    descriptor (section 4.3); a name that is not registered fails. *)
Definition executeTool (registry : list ToolDefinition) (be : Backend)
    (tool_name : string) (args : value) : M value :=
  match List.find (fun t => String.eqb (name t) tool_name) registry with
  | Some t => invoke t be args
  | None => throw "Tool not found"
  end.

(** ** Vocabulary of the statements about tool invocation *)

(** The tools the sources declare. *)
Definition registry : list ToolDefinition :=
  [accounts_list; transactions_create].

(** A backend that answers every operation with [null]. *)
Definition quiet_backend : Backend := fun _ => Ok VNull.

(** What a handler that performs the one operation [c] leaves behind: the
    backend's answer in the envelope, or the backend's failure as it is. *)
Definition delegated (be : Backend) (c : backend_call) (tr : Trace)
    : outcome value * Trace :=
  (match be c with
   | Ok answer => Ok (envelope answer)
   | Err message => Err message
   end,
   {| backend_log := c :: backend_log tr; handler_log := handler_log tr |}).

End Tools.

(* ===================================================================== *)
(** * The session router (server/httpServer.ts)                           *)
(* ===================================================================== *)

Module Http.

(** The [id] member of a JSON-RPC message. *)
Inductive jsonrpc_id :=
| IdNull
| IdNumber (n : Z)
| IdString (s : string).

(** What the handlers read of a request: the [mcp-session-id] header and
    [req.body.id] ([None] when the body or its [id] is undefined). *)
Record Request := {
  mcp_session_id : option string;
  body_id : option jsonrpc_id
}.

(** [req?.body?.id ?? null]. *)
Definition id_or_null (i : option jsonrpc_id) : jsonrpc_id :=
  match i with
  | Some i => i
  | None => IdNull
  end.

(** How a request ends. *)
Inductive response :=
| JsonRpcError (status : Z) (code : Z) (message : string) (id : jsonrpc_id)
    (* res.status(status).json({ jsonrpc: '2.0', error: { code, message }, id }) *)
| FromTransport (transport : nat) (session : option string)
    (* the transport wrote the response; [session] is the identifier it
       issued while doing so, if it initialised one *)
| CaughtError (message : string)
    (* the catch block of POST: status err.status || 500 *)
| Swallowed (message : string)
    (* the catch block of GET: logged, nothing written *)
| Escaped (message : string).
    (* DELETE has no try: the rejection leaves the handler *)

(** The line written at 140, 173 and 197. *)
Definition no_valid_session (id : jsonrpc_id) : response :=
  JsonRpcError 400 (-32000) "No valid session ID" id.

(** The transport class comes from the protocol SDK.  What it does with a
    request is taken as given, request by request:
    - [connect_raises]: [server.connect(transport)] rejects;
    - [session]: while handling the request it was created for, the
      transport initialises a session: its [sessionIdGenerator]
      (crypto.randomUUID) returned this identifier, which became its
      [sessionId] and is passed to [onsessioninitialized];
    - [closes]: the transport closes during the call, which runs the
      [onclose] of the server connected to it;
    - [raises]: [handleRequest] rejects. *)
Record Behaviour := {
  connect_raises : option string;
  session : option string;
  closes : bool;
  raises : option string
}.

(** The router's state: the [transports] map of line 43 and the heap of
    transport objects, of which only the [sessionId] property is read.
    [issued] is history, not program state: the identifiers the generator
    has returned so far. *)
Record Router := {
  transports : gmap string nat;
  sessionId : gmap nat string;
  next_transport : nat;
  issued : gset string
}.

Definition router0 : Router :=
  {| transports := ∅; sessionId := ∅; next_transport := 0; issued := ∅ |}.

Definition with_transports (m : gmap string nat) (w : Router) : Router :=
  {| transports := m; sessionId := sessionId w;
     next_transport := next_transport w; issued := issued w |}.

(** [new StreamableHTTPServerTransport(...)] (line 115). *)
Definition new_transport (w : Router) : nat * Router :=
  (next_transport w,
   {| transports := transports w; sessionId := sessionId w;
      next_transport := S (next_transport w); issued := issued w |}).

(** The generator returned [sid] for transport [t], and the callback of
    lines 118-121 ran: [transports.set(sid, transport)]. *)
Definition onsessioninitialized (sid : string) (t : nat) (w : Router) : Router :=
  {| transports := <[sid:=t]> (transports w);
     sessionId := <[t:=sid]> (sessionId w);
     next_transport := next_transport w;
     issued := {[sid]} ∪ issued w |}.

(** [server.onclose] of the server connected to [t] (lines 125-128). *)
Definition onclose (t : nat) (w : Router) : Router :=
  match sessionId w !! t with
  | Some sid =>
      if truthy (Some sid) && bool_decide (is_Some (transports w !! sid))
      then with_transports (delete sid (transports w)) w
      else w
  | None => w
  end.

Definition closing (b : Behaviour) (t : nat) (w : Router) : Router :=
  if closes b then onclose t w else w.

(** [await transport.handleRequest(...)] on a registered transport;
    [caught] is what the handler makes of a rejection. *)
Definition forward (t : nat) (b : Behaviour) (caught : string -> response)
    (w : Router) : Router * response :=
  let w1 := closing b t w in
  match raises b with
  | Some e => (w1, caught e)
  | None => (w1, FromTransport t None)
  end.

(** Lines 115-134: first contact.  A transport is built, the server is
    connected to it, and the transport handles the request; if it
    initialises a session while doing so, the callback registers it. *)
Definition initialize (b : Behaviour) (w : Router) : Router * response :=
  let '(t, w1) := new_transport w in
  match connect_raises b with
  | Some e => (w1, CaughtError e)
  | None =>
      let w2 := match session b with
                | Some sid => onsessioninitialized sid t w1
                | None => w1
                end in
      let w3 := closing b t w2 in
      match raises b with
      | Some e => (w3, CaughtError e)
      | None => (w3, FromTransport t (session b))
      end
  end.

(** POST (lines 98-158). *)
Definition post (req : Request) (b : Behaviour) (w : Router) : Router * response :=
  match mcp_session_id req with
  | None => initialize b w
  | Some sid =>
      if negb (truthy (Some sid)) then initialize b w
      else
        match transports w !! sid with
        | None => (w, no_valid_session (id_or_null (body_id req)))
        | Some t => forward t b CaughtError w
        end
  end.

(** GET (lines 161-191). *)
Definition get (req : Request) (b : Behaviour) (w : Router) : Router * response :=
  match mcp_session_id req with
  | None => (w, no_valid_session IdNull)
  | Some sid =>
      if negb (truthy (Some sid)) then (w, no_valid_session IdNull)
      else
        match transports w !! sid with
        | None => (w, no_valid_session IdNull)
        | Some t => forward t b Swallowed w
        end
  end.

(** DELETE (lines 194-204), called [terminate] because [delete] is the
    map operation. *)
Definition terminate (req : Request) (b : Behaviour) (w : Router) : Router * response :=
  match mcp_session_id req with
  | None => (w, no_valid_session IdNull)
  | Some sid =>
      if negb (truthy (Some sid)) then (w, no_valid_session IdNull)
      else
        match transports w !! sid with
        | None => (w, no_valid_session IdNull)
        | Some t =>
            let w1 := closing b t w in
            match raises b with
            | Some e => (w1, Escaped e)
            | None =>
                (with_transports (delete sid (transports w1)) w1,
                 FromTransport t None)
            end
        end
  end.

(** What reaches the router. *)
Inductive event :=
| Post (req : Request) (b : Behaviour)
| Get (req : Request) (b : Behaviour)
| Delete (req : Request) (b : Behaviour)
| ServerClosed (t : nat).   (* the server connected to [t] closes *)

Definition answered (p : Router * response) : Router * option response :=
  (fst p, Some (snd p)).

Definition step (ev : event) (w : Router) : Router * option response :=
  match ev with
  | Post req b => answered (post req b w)
  | Get req b => answered (get req b w)
  | Delete req b => answered (terminate req b w)
  | ServerClosed t => (onclose t w, None)
  end.

Definition run (evs : list event) (w : Router) : Router :=
  foldl (fun w ev => fst (step ev w)) w evs.

(** The identifier the generator returns while [ev] is handled, if any. *)
Definition generates (ev : event) : option string :=
  match ev with
  | Post req b =>
      if negb (truthy (mcp_session_id req)) then
        match connect_raises b with
        | Some _ => None
        | None => session b
        end
      else None
  | _ => None
  end.

(** The generator never returns an identifier twice. *)
Fixpoint fresh_ids (evs : list event) (w : Router) : Prop :=
  match evs with
  | [] => True
  | ev :: rest =>
      match generates ev with
      | Some sid => sid ∉ issued w
      | None => True
      end ∧ fresh_ids rest (fst (step ev w))
  end.

(** ** SIGINT (lines 224-235) *)

(** [transport.close()] is a call that returns a promise. *)
Inductive close_outcome :=
| CloseFulfils              (* the promise is fulfilled *)
| CloseRejects (e : string) (* the promise is rejected *)
| CloseThrows (e : string). (* the call itself throws *)

Inductive console_line :=
| Log (message : string)
| Error (message : string) (detail : string).

Record Shutdown := {
  router : Router;
  closed : list nat;              (* transports whose close() was called *)
  console : list console_line;    (* latest first *)
  suspended : list nat;           (* callbacks waiting at their await *)
  exit_code : option Z            (* process.exit ran with this code *)
}.

(** One call of the [forEach] callback, up to its [await].  A throw of
    the call is caught on the spot; a promise leaves the callback
    suspended, and what follows its [await] runs in a later turn of the
    event loop.  [fires] says whether closing runs the server's
    [onclose]. *)
Definition close_one (outcome_of : nat -> close_outcome) (fires : nat -> bool)
    (t : nat) (s : Shutdown) : Shutdown :=
  let r := if fires t then onclose t (router s) else router s in
  match outcome_of t with
  | CloseThrows e =>
      {| router := r; closed := t :: closed s;
         console := Error "Error closing transport:" e :: console s;
         suspended := suspended s; exit_code := exit_code s |}
  | CloseFulfils | CloseRejects _ =>
      {| router := r; closed := t :: closed s;
         console := console s;
         suspended := t :: suspended s; exit_code := exit_code s |}
  end.

(** [Map.prototype.forEach]: the entries are visited one after the other,
    and an entry removed before its turn is not visited. *)
Fixpoint for_each (outcome_of : nat -> close_outcome) (fires : nat -> bool)
    (entries : list (string * nat)) (s : Shutdown) : Shutdown :=
  match entries with
  | [] => s
  | (sid, t) :: rest =>
      match transports (router s) !! sid with
      | Some t' => for_each outcome_of fires rest (close_one outcome_of fires t' s)
      | None => for_each outcome_of fires rest s
      end
  end.

(** The handler: log, start closing every transport, exit.  The process
    ends inside [process.exit(0)], so no suspended callback is resumed.
    The entries are visited in the order of [map_to_list], not in the
    order of insertion; nothing below depends on the order. *)
Definition sigint (outcome_of : nat -> close_outcome) (fires : nat -> bool)
    (w : Router) : Shutdown :=
  let s0 := {| router := w; closed := [];
               console := [Log "Received SIGINT, shutting down gracefully..."];
               suspended := []; exit_code := None |} in
  let s1 := for_each outcome_of fires (map_to_list (transports w)) s0 in
  {| router := router s1; closed := closed s1; console := console s1;
     suspended := suspended s1; exit_code := Some 0%Z |}.

(** ** Vocabulary of the statements about the router *)

(** Every registered identifier was issued by the generator. *)
Definition recorded (w : Router) : Prop :=
  ∀ sid, is_Some (transports w !! sid) → sid ∈ issued w.

(** A registered transport carries the identifier it is registered under,
    and every transport object was allocated. *)
Definition consistent (w : Router) : Prop :=
  (∀ sid t, transports w !! sid = Some t → sessionId w !! t = Some sid) ∧
  (∀ t sid, sessionId w !! t = Some sid → t < next_transport w).

Definition fresh_step (ev : event) (w : Router) : Prop :=
  match generates ev with
  | Some sid => sid ∉ issued w
  | None => True
  end.

Definition request (sid : option string) : Request :=
  {| mcp_session_id := sid; body_id := Some (IdNumber 1) |}.

(** A transport that answers and does nothing else. *)
Definition answers : Behaviour :=
  {| connect_raises := None; session := None; closes := false; raises := None |}.

(** A fresh transport that initialises a session under [sid]. *)
Definition initialises (sid : string) : Behaviour :=
  {| connect_raises := None; session := Some sid; closes := false; raises := None |}.

(** A transport that closes while it answers, as on DELETE. *)
Definition answers_and_closes : Behaviour :=
  {| connect_raises := None; session := None; closes := true; raises := None |}.


(** Every transport's identifier was issued by the generator, and no two
    transports carry the same identifier. *)
Definition unshared (w : Router) : Prop :=
  (∀ t sid, sessionId w !! t = Some sid → sid ∈ issued w) ∧
  (∀ t1 t2 sid, sessionId w !! t1 = Some sid → sessionId w !! t2 = Some sid →
     t1 = t2).

(** ** Server-sent events and the tool listing *)

(** The line feed of the template strings. *)
Definition LF : Ascii.ascii := Ascii.ascii_of_nat 10.
Definition lf : string := String LF EmptyString.

(** [event ? `event: ${event}\n` : ''] (line 35); [event] is
    [string | null]. *)
Definition sse_payload (event : option string) : string :=
  match event with
  | Some name => if truthy event then "event: " ++ name ++ lf else ""
  | None => ""
  end.

(** [typeof data === 'string' ? data : JSON.stringify(data)] (line 37);
    what [JSON.stringify] prints is taken as given. *)
Definition sse_body (stringify : Tools.value -> string) (data : Tools.value)
    : string :=
  match data with
  | Tools.VString text => text
  | other => stringify other
  end.

(** [`${payload}data: ${body}\n\n`] (line 40). *)
Definition sse_frame (event : option string) (body : string) : string :=
  sse_payload event ++ "data: " ++ body ++ lf ++ lf.

(** [sendSSE] (lines 34-41): [res.write] appends the frame to what the
    response has been sent so far. *)
Definition sendSSE (stringify : Tools.value -> string) (event : option string)
    (data : Tools.value) (res : list string) : list string :=
  (res ++ [sse_frame event (sse_body stringify data)])%list.

(** The name an event is sent under; [null] and the empty string are sent
    alike. *)
Definition event_name (event : option string) : string :=
  match event with
  | Some name => name
  | None => ""
  end.

Definition no_line_feed (s : string) : Prop :=
  LF ∉ String.list_ascii_of_string s.

(** An entry of the answer to tools/list. *)
Record Tool := {
  tool_name : string;
  tool_description : string;
  tool_inputSchema : Tools.value
}.

(** The handler of ListToolsRequestSchema (lines 71-79).  [toolSchemas]
    is read by property access, which yields [undefined] for a name it
    does not know; [ToolSchema] is the schema imported from the SDK. *)
Definition list_tools (implementedTools : list string)
    (toolSchemas : string -> Tools.value) (ToolSchema : Tools.value)
    : list Tool :=
  (fun toolName =>
     {| tool_name := toolName;
        tool_description := "Tool named " ++ toolName;
        tool_inputSchema := Tools.or_else (toolSchemas toolName) ToolSchema |})
  <$> implementedTools.

End Http.

(* ===================================================================== *)
(** * Properties of the backend-connection guard                          *)
(* ===================================================================== *)

Module GuardSpec.
Import Guard.

Lemma caller_eqb_eq a b : caller_eqb a b = true → a = b.
Proof.
  destruct a, b; simpl; try discriminate; try reflexivity.
  intros H. apply String.eqb_eq in H. by subst.
Qed.

Lemma at_point_lookup i t w : at_point i t w = true → callers w !! i = Some t.
Proof.
  unfold at_point. destruct (callers w !! i) as [t'|]; [|discriminate].
  intros H. by rewrite (caller_eqb_eq _ _ H).
Qed.

Lemma lookup_at_point i t w : callers w !! i = Some t → at_point i t w = true.
Proof.
  unfold at_point. intros ->. destruct t; simpl; try reflexivity.
  apply String.eqb_refl.
Qed.

(** Reading the caller list after one slot was overwritten. *)
Lemma lookup_set (ts : list caller) i x j y :
  <[i:=x]> ts !! j = Some y → (j = i ∧ y = x) ∨ (j ≠ i ∧ ts !! j = Some y).
Proof.
  intros H. apply list_lookup_insert_Some in H as [(-> & -> & _)|[Hne H]]; auto.
Qed.

Lemma quiet_concurrent evs : quiet evs = true → concurrent evs = true.
Proof.
  induction evs as [|ev rest IH]; simpl; [done|].
  intros H. apply andb_true_iff in H as [_ H].
  destruct (ends_handshake ev); auto.
Qed.

Example run_three_callers_success :
  run [Call 0; Call 1; Call 2; InitSettled 0 None; Tick 1;
       DownloadSettled 0 None; Tick 1; Tick 2] (init_world env_ok 3)
  = Some {| env := env_ok;
            flags := {| initialized := true; initializing := false;
                        initializationError := None |};
            callers := [Returned; Returned; Returned];
            init_calls := 1; download_calls := 1 |}.
Proof. reflexivity. Qed.

Example run_three_callers_failure :
  run [Call 0; Call 1; Call 2; InitSettled 0 (Some (ThrownError "bad password"));
       Tick 2; Tick 1] (init_world env_ok 3)
  = Some {| env := env_ok;
            flags := {| initialized := false; initializing := false;
                        initializationError := Some "bad password" |};
            callers := [Threw "bad password"; Threw "bad password"; Threw "bad password"];
            init_calls := 1; download_calls := 0 |}.
Proof. reflexivity. Qed.

Example run_prechecks_fail :
  run [Call 0; Call 1] (init_world env_no_password 2)
  = Some {| env := env_no_password;
            flags := {| initialized := false; initializing := false;
                        initializationError := Some "ACTUAL_PASSWORD not set" |};
            callers := [Threw "ACTUAL_PASSWORD not set"; Threw "ACTUAL_PASSWORD not set"];
            init_calls := 0; download_calls := 0 |}.
Proof. reflexivity. Qed.

(** One event keeps the run inside the stages, and the failed stage is
    entered only by the event that ends the handshake. *)
Lemma holds_step ph w ev w' :
  holds ph w → step ev w = Some w' →
  (is_failed ph = true → is_call ev = false) →
  ∃ ph', holds ph' w' ∧
         (is_failed ph' = true → is_failed ph = true ∨ ends_handshake ev = true).
Proof.
  intros Hph Hstep Hq.
  destruct ev as [i|i|i r|i r]; simpl in Hstep.
  - destruct (at_point i Fresh w) eqn:Hat; [|discriminate].
    injection Hstep as <-. apply at_point_lookup in Hat.
    destruct ph; simpl in Hph.
    + destruct Hph as (t0 & Hpre & Hi & Hg & Hic & Hdc & Hts).
      exists PreFail. split; [|done].
      exists t0. unfold enter. rewrite Hi, Hg. simpl. rewrite Hpre. simpl.
      repeat split; auto.
      intros j t Hj. apply lookup_set in Hj as [[-> ->]|[Hne Hj]]; [by right|].
      destruct (Hts _ _ Hj) as [->|[-> _]]; auto.
    + destruct Hph as (Hpre & Hf & Hic & Hdc & Hts).
      exists (InFlight i). split; [|done].
      unfold enter. rewrite Hf. simpl. rewrite Hpre. simpl.
      repeat split; auto; try lia.
      intros j t Hj. apply lookup_set in Hj as [[-> ->]|[Hne Hj]]; [by left; auto|].
      right. split; [done|]. left. eauto.
    + destruct Hph as (Hpre & Hf & Hic & Hdc & Hts).
      exists (InFlight l). split; [|done].
      unfold enter. rewrite Hf. simpl.
      repeat split; auto.
      intros j t Hj. apply lookup_set in Hj as [[-> ->]|[Hne Hj]]; [|by eauto].
      destruct (Hts _ _ Hat) as [[_ [[? _]|[? _]]]|[Hne _]]; try discriminate.
      right. auto.
    + destruct Hph as (Hf & Hic & Hdc & Hts).
      exists Ready. split; [|done].
      unfold enter. rewrite Hf. simpl.
      repeat split; auto.
      intros j t Hj. apply lookup_set in Hj as [[-> ->]|[Hne Hj]]; eauto.
    + specialize (Hq eq_refl). discriminate.
  - destruct (at_point i Polling w) eqn:Hat; [|discriminate].
    injection Hstep as <-. apply at_point_lookup in Hat.
    destruct ph; simpl in Hph.
    + destruct Hph as (t0 & Hpre & Hi & Hg & Hic & Hdc & Hts).
      destruct (Hts _ _ Hat) as [?|[? _]]; discriminate.
    + destruct Hph as (Hpre & Hf & Hic & Hdc & Hts).
      specialize (Hts _ _ Hat). discriminate.
    + destruct Hph as (Hpre & Hf & Hic & Hdc & Hts).
      exists (InFlight l). split; [|done].
      unfold wake. rewrite Hf. simpl. repeat split; auto.
    + destruct Hph as (Hf & Hic & Hdc & Hts).
      exists Ready. split; [|done].
      unfold wake. rewrite Hf. simpl. repeat split; auto.
      intros j t Hj. apply lookup_set in Hj as [[-> ->]|[Hne Hj]]; eauto.
    + destruct Hph as (Hf & Hic & Hdc & Hts).
      exists (Failed e). split; [|by left].
      unfold wake. rewrite Hf. simpl. repeat split; auto.
      intros j t Hj. apply lookup_set in Hj as [[-> ->]|[Hne Hj]]; eauto.
  - destruct (at_point i AwaitInit w) eqn:Hat; [|discriminate].
    injection Hstep as <-. apply at_point_lookup in Hat.
    destruct ph; simpl in Hph.
    + destruct Hph as (t0 & Hpre & Hi & Hg & Hic & Hdc & Hts).
      destruct (Hts _ _ Hat) as [?|[? _]]; discriminate.
    + destruct Hph as (Hpre & Hf & Hic & Hdc & Hts).
      specialize (Hts _ _ Hat). discriminate.
    + destruct Hph as (Hpre & Hf & Hic & Hdc & Hts).
      destruct (Hts _ _ Hat) as [[-> [[_ Hd0]|[? _]]]|[_ [?|?]]]; try discriminate.
      assert (Hothers : ∀ j t, j ≠ l → callers w !! j = Some t → t = Fresh ∨ t = Polling).
      { intros j t Hne Hj. destruct (Hts _ _ Hj) as [[? _]|[_ ?]]; [done|auto]. }
      destruct r as [t0|]; simpl.
      * exists (Failed (as_error t0)). split; [|by right].
        unfold fail_with. simpl. rewrite Hf. simpl. repeat split; auto.
        intros j t Hj. apply lookup_set in Hj as [[-> ->]|[Hne Hj]]; [auto|].
        destruct (Hothers _ _ Hne Hj); auto.
      * exists (InFlight l). split; [|done].
        simpl. repeat split; auto; try lia.
        intros j t Hj. apply lookup_set in Hj as [[-> ->]|[Hne Hj]].
        -- left. split; [done|]. right. split; [done|lia].
        -- right. eauto.
    + destruct Hph as (Hf & Hic & Hdc & Hts).
      destruct (Hts _ _ Hat) as [?|[?|?]]; discriminate.
    + destruct Hph as (Hf & Hic & Hdc & Hts).
      destruct (Hts _ _ Hat) as [?|[?|?]]; discriminate.
  - destruct (at_point i AwaitDownload w) eqn:Hat; [|discriminate].
    injection Hstep as <-. apply at_point_lookup in Hat.
    destruct ph; simpl in Hph.
    + destruct Hph as (t0 & Hpre & Hi & Hg & Hic & Hdc & Hts).
      destruct (Hts _ _ Hat) as [?|[? _]]; discriminate.
    + destruct Hph as (Hpre & Hf & Hic & Hdc & Hts).
      specialize (Hts _ _ Hat). discriminate.
    + destruct Hph as (Hpre & Hf & Hic & Hdc & Hts).
      destruct (Hts _ _ Hat) as [[-> [[? _]|[_ Hd1]]]|[_ [?|?]]]; try discriminate.
      assert (Hothers : ∀ j t, j ≠ l → callers w !! j = Some t → t = Fresh ∨ t = Polling).
      { intros j t Hne Hj. destruct (Hts _ _ Hj) as [[? _]|[_ ?]]; [done|auto]. }
      destruct r as [t0|]; simpl.
      * exists (Failed (as_error t0)). split; [|by right].
        unfold fail_with. simpl. rewrite Hf. simpl. repeat split; auto.
        intros j t Hj. apply lookup_set in Hj as [[-> ->]|[Hne Hj]]; [auto|].
        destruct (Hothers _ _ Hne Hj); auto.
      * exists Ready. split; [|done].
        unfold succeed. simpl. rewrite Hf. simpl. repeat split; auto.
        intros j t Hj. apply lookup_set in Hj as [[-> ->]|[Hne Hj]]; [auto|].
        destruct (Hothers _ _ Hne Hj); auto.
    + destruct Hph as (Hf & Hic & Hdc & Hts).
      destruct (Hts _ _ Hat) as [?|[?|?]]; discriminate.
    + destruct Hph as (Hf & Hic & Hdc & Hts).
      destruct (Hts _ _ Hat) as [?|[?|?]]; discriminate.
Qed.

Lemma holds_run evs : ∀ ph w w',
  holds ph w → allowed ph evs → run evs w = Some w' → ∃ ph', holds ph' w'.
Proof.
  induction evs as [|ev rest IH]; intros ph w w' Hph Hal Hrun; simpl in Hrun.
  - injection Hrun as <-. eauto.
  - destruct (step ev w) as [w1|] eqn:Hstep; [|discriminate].
    destruct (holds_step ph w ev w1 Hph Hstep) as (ph1 & Hph1 & Hfail).
    { intros Hf. unfold allowed in Hal. rewrite Hf in Hal. simpl in Hal.
      apply andb_true_iff in Hal as [H _]. by apply negb_true_iff in H. }
    apply (IH ph1 w1 w' Hph1); [|done].
    unfold allowed in *. destruct (is_failed ph1) eqn:Hf1.
    + destruct (is_failed ph) eqn:Hf; simpl in Hal.
      * by apply andb_true_iff in Hal as [_ ?].
      * destruct (Hfail eq_refl) as [?|He]; [done|]. by rewrite He in Hal.
    + destruct (is_failed ph) eqn:Hf; simpl in Hal.
      * apply quiet_concurrent. by apply andb_true_iff in Hal as [_ ?].
      * destruct (ends_handshake ev); [by apply quiet_concurrent|done].
Qed.

Lemma holds_init e n : ∃ ph, holds ph (init_world e n) ∧ is_failed ph = false.
Proof.
  destruct (prechecks e) as [t0|] eqn:Hpre.
  - exists PreFail. split; [|done]. exists t0. simpl. repeat split; auto.
    intros j t Hj. apply lookup_replicate in Hj as [-> _]. by left.
  - exists Idle. split; [|done]. simpl. repeat split; auto.
    intros j t Hj. by apply lookup_replicate in Hj as [-> _].
Qed.

Lemma holds_outcome ph w : holds ph w → one_handshake_one_outcome w.
Proof.
  unfold one_handshake_one_outcome. destruct ph; simpl.
  - intros (t0 & Hpre & Hi & Hg & Hic & Hdc & Hts).
    split; [lia|]. split; [lia|]. split; [|split; [|split]].
    + intros i j a b Ha Hb Hfa Hfb.
      destruct (Hts _ _ Ha) as [->|[-> _]]; [discriminate|].
      destruct (Hts _ _ Hb) as [->|[-> _]]; [discriminate|done].
    + intros i H. destruct (Hts _ _ H) as [?|[? _]]; discriminate.
    + intros i e H. destruct (Hts _ _ H) as [?|[Ht He]]; [discriminate|].
      by injection Ht as ->.
    + intros _ i H. destruct (Hts _ _ H) as [?|[? _]]; discriminate.
  - intros (Hpre & Hf & Hic & Hdc & Hts).
    split; [lia|]. split; [lia|]. split; [|split; [|split]].
    + intros i j a b Ha Hb Hfa Hfb. rewrite (Hts _ _ Ha) in Hfa. discriminate.
    + intros i H. specialize (Hts _ _ H). discriminate.
    + intros i e H. specialize (Hts _ _ H). discriminate.
    + intros _ i H. specialize (Hts _ _ H). discriminate.
  - intros (Hpre & Hf & Hic & Hdc & Hts).
    assert (Hnf : ∀ j t, callers w !! j = Some t → finished t = false).
    { intros j t Hj.
      destruct (Hts _ _ Hj) as [[_ [[-> _]|[-> _]]]|[_ [->| ->]]]; done. }
    split; [lia|]. split; [lia|]. split; [|split; [|split]].
    + intros i j a b Ha Hb Hfa Hfb. apply Hnf in Ha. congruence.
    + intros i H. apply Hnf in H. discriminate.
    + intros i e H. apply Hnf in H. discriminate.
    + rewrite Hf. discriminate.
  - intros (Hf & Hic & Hdc & Hts).
    split; [lia|]. split; [lia|]. split; [|split; [|split]].
    + intros i j a b Ha Hb Hfa Hfb.
      destruct (Hts _ _ Ha) as [->|[->| ->]]; try discriminate.
      destruct (Hts _ _ Hb) as [->|[->| ->]]; try discriminate. done.
    + intros i H. by rewrite Hf.
    + intros i e H. destruct (Hts _ _ H) as [?|[?|?]]; discriminate.
    + intros _ i H. exists (wake i w), Returned. simpl.
      rewrite (lookup_at_point _ _ _ H). split; [done|].
      unfold wake. rewrite Hf. simpl. split; [|done].
      apply list_lookup_insert_eq. by eapply lookup_lt_Some.
  - intros (Hf & Hic & Hdc & Hts).
    split; [lia|]. split; [lia|]. split; [|split; [|split]].
    + intros i j a b Ha Hb Hfa Hfb.
      destruct (Hts _ _ Ha) as [->|[->| ->]]; try discriminate.
      destruct (Hts _ _ Hb) as [->|[->| ->]]; try discriminate. done.
    + intros i H. destruct (Hts _ _ H) as [?|[?|?]]; discriminate.
    + intros i e' H. destruct (Hts _ _ H) as [?|[?|Ht]]; try discriminate.
      injection Ht as ->. by rewrite Hf.
    + intros _ i H. exists (wake i w), (Threw e). simpl.
      rewrite (lookup_at_point _ _ _ H). split; [done|].
      unfold wake. rewrite Hf. simpl. split; [|done].
      apply list_lookup_insert_eq. by eapply lookup_lt_Some.
Qed.

(** Induction along a schedule. *)
Lemma run_invariant (P : World → Prop) :
  (∀ ev w w', step ev w = Some w' → P w → P w') →
  ∀ evs w w', run evs w = Some w' → P w → P w'.
Proof.
  intros Hstep. induction evs as [|ev rest IH]; intros w w' Hrun Hw;
    simpl in Hrun.
  - by injection Hrun as <-.
  - destruct (step ev w) as [w1|] eqn:Hev; [|discriminate].
    eapply IH; [done|]. by eapply Hstep.
Qed.

(** With a variable missing, a call throws on the spot and leaves the
    guard as idle as it was. *)
Lemma prefail_step ev w w' :
  holds PreFail w → step ev w = Some w' → holds PreFail w'.
Proof.
  intros (t0 & Hpre & Hi & Hg & Hic & Hdc & Hts) Hstep.
  destruct ev as [i|i|i r|i r]; simpl in Hstep.
  - destruct (at_point i Fresh w) eqn:Hat; [|discriminate].
    injection Hstep as <-.
    exists t0. unfold enter. rewrite Hi, Hg. simpl. rewrite Hpre. simpl.
    repeat split; auto.
    intros j t Hj. apply lookup_set in Hj as [[-> ->]|[Hne Hj]]; [by right|].
    destruct (Hts _ _ Hj) as [->|[-> _]]; auto.
  - destruct (at_point i Polling w) eqn:Hat; [|discriminate].
    apply at_point_lookup in Hat.
    destruct (Hts _ _ Hat) as [?|[? _]]; discriminate.
  - destruct (at_point i AwaitInit w) eqn:Hat; [|discriminate].
    apply at_point_lookup in Hat.
    destruct (Hts _ _ Hat) as [?|[? _]]; discriminate.
  - destruct (at_point i AwaitDownload w) eqn:Hat; [|discriminate].
    apply at_point_lookup in Hat.
    destruct (Hts _ _ Hat) as [?|[? _]]; discriminate.
Qed.

(** A fact that an event establishes and no step destroys holds at the
    end of every run in which the event occurs. *)
Lemma run_event_fact (P : World → Prop) (ev0 : event) :
  (∀ w w', step ev0 w = Some w' → P w') →
  (∀ ev w w', step ev w = Some w' → P w → P w') →
  ∀ evs w w', run evs w = Some w' → ev0 ∈ evs → P w'.
Proof.
  intros Hest Hkeep. induction evs as [|ev rest IH]; intros w w' Hrun Hin.
  - by apply elem_of_nil in Hin.
  - simpl in Hrun. destruct (step ev w) as [w1|] eqn:Hev; [|discriminate].
    apply elem_of_cons in Hin as [<-|Hin].
    + apply (run_invariant P Hkeep rest w1 w' Hrun). by eapply Hest.
    + by eapply IH.
Qed.

(** The slot of a caller is overwritten by its own events only. *)
Lemma step_slot ev w w' l t :
  step ev w = Some w' → callers w !! l = Some t →
  callers w' !! l = Some t ∨
  (finished t = false ∧ ∃ t', callers w' !! l = Some t' ∧ called t' = true).
Proof.
  intros Hstep Hl.
  assert (Hset : ∀ i x y, callers w !! i = Some x → finished x = false →
            called y = true →
            <[i:=y]> (callers w) !! l = Some t ∨
            (finished t = false ∧
             ∃ t', <[i:=y]> (callers w) !! l = Some t' ∧ called t' = true)).
  { intros i x y Hi Hx Hy. destruct (decide (i = l)) as [->|Hne].
    - right. rewrite Hl in Hi. injection Hi as ->. split; [done|].
      exists y. split; [|done]. apply list_lookup_insert_eq.
      by eapply lookup_lt_Some.
    - left. by rewrite list_lookup_insert_ne. }
  destruct ev as [i|i|i r|i r]; simpl in Hstep.
  - destruct (at_point i Fresh w) eqn:Hat; [|discriminate].
    injection Hstep as <-. apply at_point_lookup in Hat.
    unfold enter. destruct (initialized (flags w)); [by eapply Hset|].
    destruct (initializing (flags w)); [by eapply Hset|].
    simpl. destruct (prechecks (env w)); simpl; by eapply Hset.
  - destruct (at_point i Polling w) eqn:Hat; [|discriminate].
    injection Hstep as <-. apply at_point_lookup in Hat.
    unfold wake. destruct (initializing (flags w)); [by left|].
    destruct (initializationError (flags w)); simpl; by eapply Hset.
  - destruct (at_point i AwaitInit w) eqn:Hat; [|discriminate].
    injection Hstep as <-. apply at_point_lookup in Hat.
    destruct r; simpl; by eapply Hset.
  - destruct (at_point i AwaitDownload w) eqn:Hat; [|discriminate].
    injection Hstep as <-. apply at_point_lookup in Hat.
    destruct r; simpl; by eapply Hset.
Qed.

(** A caller that has finished stays as it is. *)
Lemma step_finished ev w w' l t :
  finished t = true → step ev w = Some w' →
  callers w !! l = Some t → callers w' !! l = Some t.
Proof.
  intros Hfin Hstep Hl.
  destruct (step_slot ev w w' l t Hstep Hl) as [?|[? _]]; [done|congruence].
Qed.

(** A caller that has called stays past its call. *)
Lemma step_called ev w w' l :
  step ev w = Some w' →
  (∃ t, callers w !! l = Some t ∧ called t = true) →
  ∃ t, callers w' !! l = Some t ∧ called t = true.
Proof.
  intros Hstep (t & Hl & Hc).
  destruct (step_slot ev w w' l t Hstep Hl) as [?|[_ ?]]; eauto.
Qed.

Lemma step_download_calls ev w w' :
  step ev w = Some w' → (1 ≤ download_calls w)%nat → (1 ≤ download_calls w')%nat.
Proof.
  intros Hstep Hd. destruct ev as [i|i|i r|i r]; simpl in Hstep.
  - destruct (at_point i Fresh w); [|discriminate]. injection Hstep as <-.
    unfold enter. destruct (initialized (flags w)); [done|].
    destruct (initializing (flags w)); [done|].
    simpl. by destruct (prechecks (env w)).
  - destruct (at_point i Polling w); [|discriminate]. injection Hstep as <-.
    unfold wake. destruct (initializing (flags w)); [done|].
    by destruct (initializationError (flags w)).
  - destruct (at_point i AwaitInit w); [|discriminate]. injection Hstep as <-.
    destruct r; simpl; lia.
  - destruct (at_point i AwaitDownload w); [|discriminate].
    injection Hstep as <-. by destruct r.
Qed.

Lemma step_env ev w w' : step ev w = Some w' → env w' = env w.
Proof.
  intros Hstep. destruct ev as [i|i|i r|i r]; simpl in Hstep.
  - destruct (at_point i Fresh w); [|discriminate]. injection Hstep as <-.
    unfold enter. destruct (initialized (flags w)); [done|].
    destruct (initializing (flags w)); [done|].
    simpl. by destruct (prechecks (env w)).
  - destruct (at_point i Polling w); [|discriminate]. injection Hstep as <-.
    unfold wake. destruct (initializing (flags w)); [done|].
    by destruct (initializationError (flags w)).
  - destruct (at_point i AwaitInit w); [|discriminate]. injection Hstep as <-.
    by destruct r.
  - destruct (at_point i AwaitDownload w); [|discriminate].
    injection Hstep as <-. by destruct r.
Qed.

(** What each event leaves in the slot of its caller. *)
Lemma call_leaves i w w' :
  step (Call i) w = Some w' → ∃ t, callers w' !! i = Some t ∧ called t = true.
Proof.
  simpl. destruct (at_point i Fresh w) eqn:Hat; [|discriminate].
  intros [= <-]. apply at_point_lookup, lookup_lt_Some in Hat.
  unfold enter. destruct (initialized (flags w)).
  { eexists. split; [by apply list_lookup_insert_eq|done]. }
  destruct (initializing (flags w)).
  { eexists. split; [by apply list_lookup_insert_eq|done]. }
  simpl. destruct (prechecks (env w)); simpl;
    (eexists; split; [by apply list_lookup_insert_eq|done]).
Qed.

Lemma success_leaves l w w' :
  step (DownloadSettled l None) w = Some w' → callers w' !! l = Some Returned.
Proof.
  simpl. destruct (at_point l AwaitDownload w) eqn:Hat; [|discriminate].
  intros [= <-]. apply at_point_lookup, lookup_lt_Some in Hat.
  simpl. by apply list_lookup_insert_eq.
Qed.

Lemma failure_leaves ev l t0 w w' :
  ev = InitSettled l (Some t0) ∨ ev = DownloadSettled l (Some t0) →
  step ev w = Some w' → callers w' !! l = Some (Threw (as_error t0)).
Proof.
  intros [-> | ->]; simpl.
  - destruct (at_point l AwaitInit w) eqn:Hat; [|discriminate].
    intros [= <-]. apply at_point_lookup, lookup_lt_Some in Hat.
    simpl. by apply list_lookup_insert_eq.
  - destruct (at_point l AwaitDownload w) eqn:Hat; [|discriminate].
    intros [= <-]. apply at_point_lookup, lookup_lt_Some in Hat.
    simpl. by apply list_lookup_insert_eq.
Qed.

Lemma init_resolved_leaves l w w' :
  step (InitSettled l None) w = Some w' → (1 ≤ download_calls w')%nat.
Proof.
  simpl. destruct (at_point l AwaitInit w); [|discriminate].
  intros [= <-]. simpl. lia.
Qed.

(** A caller that has returned tells that the stage is [Ready]. *)
Lemma holds_returned ph w l :
  holds ph w → callers w !! l = Some Returned → holds Ready w.
Proof.
  intros Hph Hl. destruct ph; simpl in Hph.
  - destruct Hph as (t0 & _ & _ & _ & _ & _ & Hts).
    destruct (Hts _ _ Hl) as [?|[? _]]; discriminate.
  - destruct Hph as (_ & _ & _ & _ & Hts). specialize (Hts _ _ Hl). discriminate.
  - destruct Hph as (_ & _ & _ & _ & Hts).
    destruct (Hts _ _ Hl) as [[_ [[? _]|[? _]]]|[_ [?|?]]]; discriminate.
  - done.
  - destruct Hph as (_ & _ & _ & Hts).
    destruct (Hts _ _ Hl) as [?|[?|?]]; discriminate.
Qed.

(** A caller that has thrown tells what the guard holds and what the
    others can have done. *)
Lemma holds_threw ph w l err :
  holds ph w → callers w !! l = Some (Threw err) →
  flags w = {| initialized := false; initializing := false;
               initializationError := Some err |} ∧
  (∀ i t, callers w !! i = Some t → t = Fresh ∨ t = Polling ∨ t = Threw err).
Proof.
  intros Hph Hl. destruct ph; simpl in Hph.
  - destruct Hph as (t0 & _ & Hi & Hg & _ & _ & Hts).
    destruct (Hts _ _ Hl) as [?|[[= ->] He]]; [discriminate|]. split.
    + destruct (flags w) as [a b c]. simpl in *. by subst.
    + intros i t Hi'. destruct (Hts _ _ Hi') as [->|[-> _]]; auto.
  - destruct Hph as (_ & _ & _ & _ & Hts). specialize (Hts _ _ Hl). discriminate.
  - destruct Hph as (_ & _ & _ & _ & Hts).
    destruct (Hts _ _ Hl) as [[_ [[? _]|[? _]]]|[_ [?|?]]]; discriminate.
  - destruct Hph as (_ & _ & _ & Hts).
    destruct (Hts _ _ Hl) as [?|[?|?]]; discriminate.
  - destruct Hph as (Hf & _ & _ & Hts).
    destruct (Hts _ _ Hl) as [?|[?|[= ->]]]; try discriminate. by split.
Qed.

(** C1.  N callers are started from the not-started state and every one of
    them calls before the handshake in flight has ended.  Whatever the
    interleaving:
    - [api.init] and [api.downloadBudget] are each called at most once, and
      exactly once as soon as a caller has called (with pre-checks that
      pass) and as soon as [api.init] has resolved;
    - any two callers that have finished finished alike;
    - if the handshake succeeded, the caller that ran it has returned, the
      guard is ready, nobody has thrown, and every caller still waiting
      returns at its next timer tick;
    - if the handshake failed, the caller that ran it has thrown the
      captured error, the guard holds that error, nobody has returned or
      thrown anything else, and every caller still waiting throws that
      same error at its next timer tick;
    - if the pre-checks throw, every caller that has called has thrown what
      they throw, and no handshake was started. *)
Theorem concurrent_calls_share_one_handshake (e : Env) (n : nat)
    (evs : list event) (w : World) :
  concurrent evs = true →
  run evs (init_world e n) = Some w →
  one_handshake_one_outcome w ∧ handshake_decides e evs w.
Proof.
  intros Hc Hrun.
  destruct (holds_init e n) as (ph0 & H0 & Hnf).
  destruct (holds_run evs ph0 _ w H0) as (ph & Hph); [|done|].
  { unfold allowed. by rewrite Hnf. }
  pose proof (holds_outcome ph w Hph) as Hout. split; [done|].
  assert (Henv : env w = e).
  { apply (run_invariant (λ w, env w = e)
             (λ ev w w' H Hw, eq_trans (step_env ev w w' H) Hw) _ _ _ Hrun).
    done. }
  assert (Hcalled : ∀ i, Call i ∈ evs →
            ∃ t, callers w !! i = Some t ∧ called t = true).
  { intros i Hin.
    apply (run_event_fact
             (λ w, ∃ t, callers w !! i = Some t ∧ called t = true) (Call i)
             (call_leaves i) (λ ev w w' H, step_called ev w w' i H)
             evs _ w Hrun Hin). }
  split; [done|]. split; [|split; [|split; [|split]]].
  - intros Hpre [i Hin]. destruct (Hcalled i Hin) as (t & Ht & Hct).
    destruct ph; simpl in Hph.
    + destruct Hph as (t0 & Hpre' & _). rewrite Henv in Hpre'. congruence.
    + destruct Hph as (_ & _ & _ & _ & Hts). rewrite (Hts _ _ Ht) in Hct.
      discriminate.
    + by destruct Hph as (_ & _ & ? & _).
    + by destruct Hph as (_ & ? & _).
    + by destruct Hph as (_ & ? & _).
  - intros t0 i Hpre Hin. destruct (Hcalled i Hin) as (t & Ht & Hct).
    assert (Hpf : holds PreFail w).
    { apply (run_invariant (holds PreFail)
               (λ ev w w' H Hw, prefail_step ev w w' Hw H) _ _ _ Hrun).
      exists t0. simpl. repeat split; auto.
      intros j t' Hj. apply lookup_replicate in Hj as [-> _]. by left. }
    destruct Hpf as (t0' & Hpre' & _ & _ & Hic & _ & Hts).
    rewrite Henv, Hpre in Hpre'. injection Hpre' as <-.
    split; [|done].
    destruct (Hts _ _ Ht) as [->|[-> _]]; [discriminate|done].
  - intros l Hin.
    assert (1 ≤ download_calls w)%nat.
    { apply (run_event_fact (λ w, (1 ≤ download_calls w)%nat)
               (InitSettled l None) (init_resolved_leaves l)
               step_download_calls evs _ w Hrun Hin). }
    destruct Hout as (_ & ? & _). lia.
  - intros l Hin.
    assert (Hl : callers w !! l = Some Returned).
    { apply (run_event_fact (λ w, callers w !! l = Some Returned)
               (DownloadSettled l None) (success_leaves l)
               (λ ev w w' H, step_finished ev w w' l Returned eq_refl H)
               evs _ w Hrun Hin). }
    destruct (holds_returned ph w l Hph Hl) as (Hf & _ & _ & Hts).
    repeat split; auto.
    intros i Hi. simpl. rewrite (lookup_at_point _ _ _ Hi).
    unfold wake. by rewrite Hf.
  - intros l t0 Hin.
    assert (Hl : callers w !! l = Some (Threw (as_error t0))).
    { destruct Hin as [Hin|Hin].
      - apply (run_event_fact (λ w, callers w !! l = Some (Threw (as_error t0)))
                 (InitSettled l (Some t0))
                 (λ w w', failure_leaves _ l t0 w w' (or_introl eq_refl))
                 (λ ev w w' H, step_finished ev w w' l (Threw (as_error t0)) eq_refl H)
                 evs _ w Hrun Hin).
      - apply (run_event_fact (λ w, callers w !! l = Some (Threw (as_error t0)))
                 (DownloadSettled l (Some t0))
                 (λ w w', failure_leaves _ l t0 w w' (or_intror eq_refl))
                 (λ ev w w' H, step_finished ev w w' l (Threw (as_error t0)) eq_refl H)
                 evs _ w Hrun Hin). }
    destruct (holds_threw ph w l _ Hph Hl) as (Hf & Hts).
    repeat split; auto.
    intros i Hi. simpl. rewrite (lookup_at_point _ _ _ Hi).
    unfold wake. by rewrite Hf.
Qed.

Lemma concurrent_calls_share_one_handshake_witness :
  let evs := [Call 0; Call 1; InitSettled 0 None; Call 2;
              DownloadSettled 0 (Some (ThrownError "bad password")); Tick 1] in
  let w := {| env := env_ok;
              flags := {| initialized := false; initializing := false;
                          initializationError := Some "bad password" |};
              callers := [Threw "bad password"; Threw "bad password"; Polling];
              init_calls := 1; download_calls := 1 |} in
  one_handshake_one_outcome w ∧ handshake_decides env_ok evs w.
Proof.
  intros evs w.
  apply (concurrent_calls_share_one_handshake env_ok 3 evs w); reflexivity.
Defined.

(** Why the calls have to be concurrent: a call that arrives after the
    handshake has failed, while another caller still waits for its timer,
    starts a second handshake; the waiter then wakes up to the old error
    although the second handshake succeeded. *)
Example late_call_starts_second_handshake :
  run [Call 0; Call 1; InitSettled 0 (Some (ThrownError "bad password"));
       Call 2; Tick 1; InitSettled 2 None; DownloadSettled 2 None; Tick 1]
      (init_world env_ok 3)
  = Some {| env := env_ok;
            flags := {| initialized := true; initializing := false;
                        initializationError := Some "bad password" |};
            callers := [Threw "bad password"; Threw "bad password"; Returned];
            init_calls := 2; download_calls := 1 |}.
Proof. reflexivity. Qed.

(** ** Arbitrary schedules: what survives without the concurrency
       assumption *)

(** [initialized] is never reset. *)
Lemma step_initialized ev w w' :
  step ev w = Some w' → initialized (flags w) = true →
  initialized (flags w') = true.
Proof.
  intros Hstep Hi. destruct ev as [i|i|i r|i r]; simpl in Hstep.
  - destruct (at_point i Fresh w); [|discriminate]. injection Hstep as <-.
    unfold enter. by rewrite Hi.
  - destruct (at_point i Polling w); [|discriminate]. injection Hstep as <-.
    unfold wake. destruct (initializing (flags w)); [done|].
    by destruct (initializationError (flags w)).
  - destruct (at_point i AwaitInit w); [|discriminate]. injection Hstep as <-.
    by destruct r.
  - destruct (at_point i AwaitDownload w); [|discriminate]. injection Hstep as <-.
    by destruct r.
Qed.

Lemma run_initialized evs : ∀ w w',
  run evs w = Some w' → initialized (flags w) = true →
  initialized (flags w') = true.
Proof.
  induction evs as [|ev rest IH]; intros w w' Hrun Hi; simpl in Hrun.
  - by injection Hrun as <-.
  - destruct (step ev w) as [w1|] eqn:Hstep; [|discriminate].
    eapply IH; [done|]. by eapply step_initialized.
Qed.

Lemma lookup_set_ne (ts : list caller) i x y :
  x ≠ y → (∀ j, ts !! j ≠ Some y) → ∀ j, <[i:=x]> ts !! j ≠ Some y.
Proof.
  intros Hxy Hts j Hj. apply lookup_set in Hj as [[_ ?]|[_ Hj]]; [done|].
  by apply (Hts j).
Qed.

Lemma step_sound ev w w' : step ev w = Some w' → sound w → sound w'.
Proof.
  intros Hstep [Hi|[Hret Hpoll]].
  { left. by eapply step_initialized. }
  destruct (initialized (flags w)) eqn:Hi.
  { left. by eapply step_initialized. }
  destruct ev as [i|i|i r|i r]; simpl in Hstep.
  - destruct (at_point i Fresh w); [|discriminate]. injection Hstep as <-.
    right. unfold enter. rewrite Hi.
    destruct (initializing (flags w)) eqn:Hg.
    + split; simpl; [by apply lookup_set_ne|]. rewrite Hg. auto.
    + simpl. destruct (prechecks (env w)); simpl.
      * split; simpl; [by apply lookup_set_ne|]. eauto.
      * split; simpl; [by apply lookup_set_ne|]. auto.
  - destruct (at_point i Polling w) eqn:Hat; [|discriminate].
    injection Hstep as <-. apply at_point_lookup in Hat.
    right. unfold wake. destruct (initializing (flags w)) eqn:Hg.
    + split; [done|]. rewrite Hg. auto.
    + destruct (initializationError (flags w)) as [e|] eqn:He.
      * split; simpl; [by apply lookup_set_ne|]. rewrite He. eauto.
      * destruct Hpoll as [Hnone|[?|[? ?]]]; try discriminate.
        by destruct (Hnone i).
  - destruct (at_point i AwaitInit w); [|discriminate]. injection Hstep as <-.
    right. destruct r as [t0|]; simpl.
    + split; simpl; [by apply lookup_set_ne|]. eauto.
    + split; simpl; [by apply lookup_set_ne|].
      destruct Hpoll as [Hnone|Hrest]; [|by right].
      left. by apply lookup_set_ne.
  - destruct (at_point i AwaitDownload w); [|discriminate]. injection Hstep as <-.
    destruct r as [t0|]; simpl.
    + right. split; simpl; [by apply lookup_set_ne|]. eauto.
    + by left.
Qed.

Lemma run_sound evs : ∀ w w', run evs w = Some w' → sound w → sound w'.
Proof.
  induction evs as [|ev rest IH]; intros w w' Hrun Hs; simpl in Hrun.
  - by injection Hrun as <-.
  - destruct (step ev w) as [w1|] eqn:Hstep; [|discriminate].
    eapply IH; [done|]. by eapply step_sound.
Qed.

Lemma init_sound e n : sound (init_world e n).
Proof.
  right. split.
  - intros j Hj. by apply lookup_replicate in Hj as [? _].
  - left. intros j Hj. by apply lookup_replicate in Hj as [? _].
Qed.

(** A caller has returned only if the guard is ready. *)
Lemma returned_initialized e n evs w j :
  run evs (init_world e n) = Some w → callers w !! j = Some Returned →
  initialized (flags w) = true.
Proof.
  intros Hrun Hj.
  destruct (run_sound _ _ _ Hrun (init_sound e n)) as [?|[Hret _]]; [done|].
  by destruct (Hret j).
Qed.

(** On a ready guard a call is over before it ever waits. *)
Lemma enter_ready i w :
  initialized (flags w) = true → callers w !! i = Some Fresh →
  step (Call i) w = Some (set_caller i Returned w).
Proof.
  intros Hi Hf. simpl. rewrite (lookup_at_point _ _ _ Hf).
  unfold enter. by rewrite Hi.
Qed.

(** C8.  Once some call has returned, every later call, whatever happened
    in between, returns in the very step it is made in: only its own slot
    changes, so the flags stay as they are and neither [api.init] nor
    [api.downloadBudget] is called again. *)
Theorem ready_is_permanent (e : Env) (n : nat) (evs evs' : list event)
    (w w' : World) (i j : nat) :
  run evs (init_world e n) = Some w →
  callers w !! j = Some Returned →
  run evs' w = Some w' →
  callers w' !! i = Some Fresh →
  step (Call i) w' = Some (set_caller i Returned w') ∧
  initialized (flags w') = true ∧
  init_calls (set_caller i Returned w') = init_calls w' ∧
  download_calls (set_caller i Returned w') = download_calls w' ∧
  flags (set_caller i Returned w') = flags w'.
Proof.
  intros Hrun Hj Hrun' Hi.
  assert (Hready : initialized (flags w') = true).
  { eapply run_initialized; [done|]. by eapply returned_initialized. }
  split; [by apply enter_ready|]. by repeat split.
Qed.

Lemma ready_is_permanent_witness :
  step (Call 2)
    {| env := env_ok;
       flags := {| initialized := true; initializing := false;
                   initializationError := None |};
       callers := [Returned; Returned; Fresh];
       init_calls := 1; download_calls := 1 |}
  = Some {| env := env_ok;
            flags := {| initialized := true; initializing := false;
                        initializationError := None |};
            callers := [Returned; Returned; Returned];
            init_calls := 1; download_calls := 1 |}.
Proof.
  refine (proj1 (ready_is_permanent env_ok 3
                   [Call 0; Call 1; InitSettled 0 None; DownloadSettled 0 None]
                   [Tick 1] _ _ 2 0 _ _ _ _)); reflexivity.
Defined.

(** C10.  A call made after some call has returned returns as well, even
    if an earlier failed attempt has left [initializationError] set: the
    error is neither thrown nor touched. *)
Theorem success_outranks_stale_error (e : Env) (n : nat) (evs : list event)
    (w : World) (i j : nat) (err : string) :
  run evs (init_world e n) = Some w →
  callers w !! j = Some Returned →
  initializationError (flags w) = Some err →
  callers w !! i = Some Fresh →
  ∃ w', step (Call i) w = Some w' ∧
        callers w' !! i = Some Returned ∧
        initializationError (flags w') = Some err.
Proof.
  intros Hrun Hj Herr Hi.
  exists (set_caller i Returned w). split.
  - apply enter_ready; [|done]. by eapply returned_initialized.
  - split; [|done]. simpl. apply list_lookup_insert_eq. by eapply lookup_lt_Some.
Qed.

Lemma success_outranks_stale_error_witness :
  ∃ w', step (Call 2)
          {| env := env_ok;
             flags := {| initialized := true; initializing := false;
                         initializationError := Some "bad password" |};
             callers := [Threw "bad password"; Returned; Fresh];
             init_calls := 2; download_calls := 1 |} = Some w' ∧
        callers w' !! 2 = Some Returned ∧
        initializationError (flags w') = Some "bad password".
Proof.
  apply (success_outranks_stale_error env_ok 3
           [Call 0; InitSettled 0 (Some (ThrownError "bad password"));
            Call 1; InitSettled 1 None; DownloadSettled 1 None]
           _ 2 1 "bad password"); reflexivity.
Defined.

(** C2 fails on the code: after [api.init] has rejected, the next call
    finds both flags false, never looks at [initializationError], and
    calls [api.init] a second time. *)
Lemma failed_guard_is_not_terminal : ¬ failed_is_terminal.
Proof.
  intros H.
  pose (w := {| env := env_ok;
                flags := {| initialized := false; initializing := false;
                            initializationError := Some "bad password" |};
                callers := [Threw "bad password"; Fresh];
                init_calls := 1; download_calls := 0 |}).
  destruct (H env_ok 2
              [Call 0; InitSettled 0 (Some (ThrownError "bad password"))]
              w (enter 1 w) 1 0 "bad password") as [_ [Hinit _]].
  - reflexivity.
  - reflexivity.
  - intros [|[|k]]; discriminate.
  - reflexivity.
  - discriminate.
Qed.

(** C2, amended.  After a failed attempt (not ready, nothing in flight, an
    error captured) a caller that was waiting throws the captured error and
    no backend operation is called for it, while a new call starts a new
    attempt: it runs the pre-checks again and, if they pass, calls
    [api.init] again with the old error still captured; if they throw, it
    throws and captures what they threw. *)
Theorem failed_guard_replays_to_waiters_only (w : World) (i : nat) (err : string) :
  initialized (flags w) = false →
  initializing (flags w) = false →
  initializationError (flags w) = Some err →
  (callers w !! i = Some Polling →
     step (Tick i) w = Some (set_caller i (Threw err) w)) ∧
  (callers w !! i = Some Fresh →
     ∃ w', step (Call i) w = Some w' ∧
       match prechecks (env w) with
       | None =>
           callers w' !! i = Some AwaitInit ∧
           init_calls w' = S (init_calls w) ∧
           initializing (flags w') = true ∧
           initializationError (flags w') = Some err
       | Some t =>
           callers w' !! i = Some (Threw (as_error t)) ∧
           init_calls w' = init_calls w ∧
           initializing (flags w') = false ∧
           initializationError (flags w') = Some (as_error t)
       end).
Proof.
  intros Hi Hg He. split.
  - intros Hp. simpl. rewrite (lookup_at_point _ _ _ Hp).
    unfold wake. by rewrite Hg, He.
  - intros Hf. exists (enter i w). simpl. rewrite (lookup_at_point _ _ _ Hf).
    split; [done|]. apply lookup_lt_Some in Hf.
    unfold enter. rewrite Hi, Hg. simpl.
    destruct (prechecks (env w)); simpl;
      (split; [by apply list_lookup_insert_eq|by rewrite ?He]).
Qed.

Lemma failed_guard_replays_to_waiters_only_witness :
  let w := {| env := env_ok;
              flags := {| initialized := false; initializing := false;
                          initializationError := Some "bad password" |};
              callers := [Threw "bad password"; Polling; Fresh];
              init_calls := 1; download_calls := 0 |} in
  step (Tick 1) w = Some (set_caller 1 (Threw "bad password") w) ∧
  ∃ w', step (Call 2) w = Some w' ∧
        callers w' !! 2 = Some AwaitInit ∧ init_calls w' = 2 ∧
        initializing (flags w') = true ∧
        initializationError (flags w') = Some "bad password".
Proof.
  intros w.
  destruct (failed_guard_replays_to_waiters_only w 1 "bad password"
              eq_refl eq_refl eq_refl) as [Hwait _].
  destruct (failed_guard_replays_to_waiters_only w 2 "bad password"
              eq_refl eq_refl eq_refl) as [_ Hnew].
  split; [exact (Hwait eq_refl)|exact (Hnew eq_refl)].
Defined.

End GuardSpec.

(* ===================================================================== *)
(** * Properties of tool invocation                                       *)
(* ===================================================================== *)

Module ToolsSpec.
Import Tools.

Lemma violates_parse s v :
  violates s v = true → ∃ msg, parse s v = Err msg.
Proof.
  unfold violates. destruct (parse s v) as [a|msg]; [discriminate|eauto].
Qed.

(** Validation stops the invocation with the trace as it was. *)
Lemma invoke_rejects t be args tr :
  violates (inputSchema t) args = true →
  ∃ msg, invoke t be args tr = (Err msg, tr).
Proof.
  intros Hv. apply violates_parse in Hv as [msg Hp].
  exists msg. unfold invoke, bind, lift. by rewrite Hp.
Qed.

(** C3.  Whatever the registry holds and whatever the backend would
    answer: when the arguments violate the schema of the tool that is
    looked up, the invocation fails and leaves the trace untouched, so the
    handler was not entered and no backend operation was performed; hence a
    run in which the handler was entered had arguments that the schema
    accepts. *)
Theorem invalid_input_never_reaches_handler (reg : list ToolDefinition)
    (be : Backend) (tool_name : string) (t : ToolDefinition) (args : value)
    (tr : Trace) :
  List.find (fun t => String.eqb (name t) tool_name) reg = Some t →
  (violates (inputSchema t) args = true →
     ∃ msg, executeTool reg be tool_name args tr = (Err msg, tr)) ∧
  (handler_log (snd (executeTool reg be tool_name args tr)) ≠ handler_log tr →
     violates (inputSchema t) args = false).
Proof.
  intros Hfind. unfold executeTool. rewrite Hfind. split.
  - apply invoke_rejects.
  - intros Hlog. destruct (violates (inputSchema t) args) eqn:Hv; [|done].
    destruct (invoke_rejects t be args tr Hv) as [msg Hinv].
    rewrite Hinv in Hlog. by destruct Hlog.
Qed.

Lemma invalid_input_never_reaches_handler_witness :
  ∃ msg, executeTool registry quiet_backend "actual.accounts.list"
           (VString "all of them") trace0 = (Err msg, trace0).
Proof.
  refine (proj1 (invalid_input_never_reaches_handler registry quiet_backend
                   "actual.accounts.list" accounts_list (VString "all of them")
                   trace0 _) _); reflexivity.
Defined.

(** Valid input does reach the handler, once, and the handler performs
    its one backend operation. *)
Example accounts_list_valid :
  executeTool registry quiet_backend "actual.accounts.list" (VObject []) trace0
  = (Ok (VObject [("result", VNull)]),
     {| backend_log := [GetAccounts];
        handler_log := ["actual.accounts.list"] |}).
Proof. reflexivity. Qed.

(** [z.any()] rejects nothing. *)
Lemma transactions_create_accepts_all args :
  violates (inputSchema transactions_create) args = false.
Proof. reflexivity. Qed.

(** The handler of the first accounts.list document does not look at its
    arguments: called directly it reaches the backend on any input, so the
    rejection above is the work of the invocation, not of the handler. *)
Lemma accounts_list_call_ignores_args be args tr :
  snd (call accounts_list be args tr)
  = {| backend_log := GetAccounts :: backend_log tr;
       handler_log := handler_log tr |}.
Proof.
  unfold call, accounts_list, bind, perform, ret. by destruct (be GetAccounts).
Qed.

(** The handler of the second document parses [args || {}] itself: a
    truthy value that is not an object stops it before the adapter. *)
Lemma accounts_list_adapter_rejects be args tr :
  value_truthy args = true → violates ZObjectEmpty args = true →
  ∃ msg, call accounts_list_adapter be args tr = (Err msg, tr).
Proof.
  intros Ht Hv. apply violates_parse in Hv as [msg Hp]. exists msg.
  unfold call, accounts_list_adapter, bind, lift, or_else.
  by rewrite Ht, Hp.
Qed.

End ToolsSpec.

(* ===================================================================== *)
(** * Properties of the session router                                    *)
(* ===================================================================== *)

Module HttpSpec.
Import Http.

Lemma onclose_lookup t w sid :
  transports (onclose t w) !! sid = transports w !! sid ∨
  transports (onclose t w) !! sid = None.
Proof.
  unfold onclose. destruct (sessionId w !! t) as [s|]; [|by left].
  destruct (truthy (Some s) && bool_decide (is_Some (transports w !! s)));
    [|by left].
  simpl. destruct (decide (s = sid)) as [->|Hne].
  - right. apply lookup_delete_eq.
  - left. by apply lookup_delete_ne.
Qed.

Lemma onclose_rest t w :
  sessionId (onclose t w) = sessionId w ∧
  next_transport (onclose t w) = next_transport w ∧
  issued (onclose t w) = issued w.
Proof.
  unfold onclose. destruct (sessionId w !! t) as [s|]; [|done].
  by destruct (truthy (Some s) && bool_decide (is_Some (transports w !! s))).
Qed.

Lemma closing_lookup b t w sid :
  transports (closing b t w) !! sid = transports w !! sid ∨
  transports (closing b t w) !! sid = None.
Proof. unfold closing. destruct (closes b); [apply onclose_lookup|by left]. Qed.

Lemma closing_rest b t w :
  sessionId (closing b t w) = sessionId w ∧
  next_transport (closing b t w) = next_transport w ∧
  issued (closing b t w) = issued w.
Proof. unfold closing. destruct (closes b); [apply onclose_rest|done]. Qed.

Lemma forward_lookup t b caught w sid :
  transports (fst (forward t b caught w)) !! sid = transports w !! sid ∨
  transports (fst (forward t b caught w)) !! sid = None.
Proof.
  unfold forward. destruct (raises b); simpl; apply closing_lookup.
Qed.

Lemma forward_rest t b caught w :
  sessionId (fst (forward t b caught w)) = sessionId w ∧
  next_transport (fst (forward t b caught w)) = next_transport w ∧
  issued (fst (forward t b caught w)) = issued w.
Proof.
  unfold forward. destruct (raises b); simpl; apply closing_rest.
Qed.

Lemma initialize_lookup b w sid :
  transports (fst (initialize b w)) !! sid = transports w !! sid ∨
  transports (fst (initialize b w)) !! sid = None ∨
  (connect_raises b = None ∧ session b = Some sid).
Proof.
  unfold initialize. simpl. destruct (connect_raises b); simpl; [by left|].
  destruct (session b) as [s|] eqn:Hsess.
  - destruct (decide (s = sid)) as [->|Hne]; [by right; right|].
    match goal with |- context [closing b ?t ?w0] =>
      destruct (closing_lookup b t w0 sid) as [H|H] end;
      destruct (raises b); simpl; rewrite H; simpl;
      rewrite ?lookup_insert_ne by done; auto.
  - match goal with |- context [closing b ?t ?w0] =>
      destruct (closing_lookup b t w0 sid) as [H|H] end;
      destruct (raises b); simpl; rewrite H; simpl; auto.
Qed.

Lemma initialize_issued b w :
  issued (fst (initialize b w))
  = match connect_raises b, session b with
    | None, Some sid => {[sid]} ∪ issued w
    | _, _ => issued w
    end.
Proof.
  unfold initialize. simpl. destruct (connect_raises b); simpl; [done|].
  match goal with |- context [closing b ?t ?w0] =>
    destruct (closing_rest b t w0) as (_ & _ & H) end.
  destruct (raises b); simpl; rewrite H; by destruct (session b).
Qed.

(** What one event can do to the entry of [sid]: nothing, remove it, or,
    if the generator returned [sid] during the event, anything. *)
Lemma step_lookup ev w sid :
  transports (fst (step ev w)) !! sid = transports w !! sid ∨
  transports (fst (step ev w)) !! sid = None ∨
  generates ev = Some sid.
Proof.
  destruct ev as [req b|req b|req b|t]; simpl.
  - assert (Hinit : truthy (mcp_session_id req) = false →
      transports (fst (initialize b w)) !! sid = transports w !! sid ∨
      transports (fst (initialize b w)) !! sid = None ∨
      (if negb (truthy (mcp_session_id req))
       then match connect_raises b with Some _ => None | None => session b end
       else None) = Some sid).
    { intros ->. simpl.
      destruct (initialize_lookup b w sid) as [H|[H|[-> H]]]; auto. }
    unfold post. destruct (mcp_session_id req) as [s|] eqn:Hh; [|by apply Hinit].
    destruct (truthy (Some s)) eqn:Htr; [|by apply Hinit].
    change (negb true) with false. cbv iota.
    destruct (transports w !! s) as [t|] eqn:Hs; [|by left].
    destruct (forward_lookup t b CaughtError w sid); auto.
  - unfold get. destruct (mcp_session_id req) as [s|]; [|by left].
    destruct (negb (truthy (Some s))); [by left|].
    destruct (transports w !! s) as [t|] eqn:Hs; [|by left].
    destruct (forward_lookup t b Swallowed w sid); auto.
  - unfold terminate. destruct (mcp_session_id req) as [s|]; [|by left].
    destruct (negb (truthy (Some s))); [by left|].
    destruct (transports w !! s) as [t|] eqn:Hs; [|by left].
    destruct (raises b); simpl.
    + destruct (closing_lookup b t w sid) as [H|H]; auto.
    + destruct (decide (s = sid)) as [->|Hne].
      * right. left. apply lookup_delete_eq.
      * rewrite lookup_delete_ne by done.
        destruct (closing_lookup b t w sid) as [H|H]; auto.
  - destruct (onclose_lookup t w sid); auto.
Qed.

(** The history grows by exactly what the generator returned. *)
Lemma step_issued ev w :
  issued (fst (step ev w))
  = match generates ev with
    | Some sid => {[sid]} ∪ issued w
    | None => issued w
    end.
Proof.
  destruct ev as [req b|req b|req b|t]; simpl.
  - assert (Hinit : truthy (mcp_session_id req) = false →
      issued (fst (initialize b w))
      = match (if negb (truthy (mcp_session_id req))
               then match connect_raises b with Some _ => None | None => session b end
               else None) with
        | Some sid => {[sid]} ∪ issued w
        | None => issued w
        end).
    { intros ->. simpl. rewrite initialize_issued.
      by destruct (connect_raises b), (session b). }
    unfold post. destruct (mcp_session_id req) as [s|] eqn:Hh; [|by apply Hinit].
    destruct (truthy (Some s)) eqn:Htr; [|by apply Hinit].
    change (negb true) with false. cbv iota.
    destruct (transports w !! s) as [t|]; [|done].
    by destruct (forward_rest t b CaughtError w) as (_ & _ & H).
  - unfold get. destruct (mcp_session_id req) as [s|]; [|done].
    destruct (negb (truthy (Some s))); [done|].
    destruct (transports w !! s) as [t|]; [|done].
    by destruct (forward_rest t b Swallowed w) as (_ & _ & H).
  - unfold terminate. destruct (mcp_session_id req) as [s|]; [|done].
    destruct (negb (truthy (Some s))); [done|].
    destruct (transports w !! s) as [t|]; [|done].
    destruct (closing_rest b t w) as (_ & _ & H).
    by destruct (raises b).
  - by destruct (onclose_rest t w) as (_ & _ & H).
Qed.

Lemma step_issued_mono ev w sid :
  sid ∈ issued w → sid ∈ issued (fst (step ev w)).
Proof. rewrite step_issued. destruct (generates ev); set_solver. Qed.

Lemma step_recorded ev w : recorded w → recorded (fst (step ev w)).
Proof.
  intros Hrec sid Hsome.
  destruct (step_lookup ev w sid) as [H|[H|H]].
  - apply step_issued_mono, Hrec. by rewrite <- H.
  - rewrite H in Hsome. by destruct Hsome.
  - rewrite step_issued, H. set_solver.
Qed.

(** An identifier that was issued and is gone stays gone. *)
Lemma step_absent ev w sid :
  fresh_step ev w → sid ∈ issued w → transports w !! sid = None →
  transports (fst (step ev w)) !! sid = None.
Proof.
  intros Hfresh Hin Hnone.
  destruct (step_lookup ev w sid) as [H|[H|H]]; [congruence|done|].
  unfold fresh_step in Hfresh. rewrite H in Hfresh. done.
Qed.

(** An identifier that is bound stays bound to the same transport or goes. *)
Lemma step_bound ev w sid t :
  recorded w → fresh_step ev w → transports w !! sid = Some t →
  transports (fst (step ev w)) !! sid = Some t ∨
  transports (fst (step ev w)) !! sid = None.
Proof.
  intros Hrec Hfresh Hsome.
  destruct (step_lookup ev w sid) as [H|[H|H]]; [left; congruence|by right|].
  unfold fresh_step in Hfresh. rewrite H in Hfresh.
  destruct Hfresh. apply Hrec. by rewrite Hsome.
Qed.

Lemma run_app evs1 evs2 w : run (evs1 ++ evs2) w = run evs2 (run evs1 w).
Proof. unfold run. apply foldl_app. Qed.

Lemma fresh_ids_app evs1 : ∀ evs2 w,
  fresh_ids (evs1 ++ evs2) w ↔ fresh_ids evs1 w ∧ fresh_ids evs2 (run evs1 w).
Proof.
  induction evs1 as [|ev rest IH]; intros evs2 w; simpl.
  - tauto.
  - rewrite IH. unfold run. simpl. tauto.
Qed.

Lemma run_recorded evs : ∀ w, recorded w → recorded (run evs w).
Proof.
  induction evs as [|ev rest IH]; intros w Hrec; [done|].
  apply (IH _ (step_recorded ev w Hrec)).
Qed.

Lemma run_issued_mono evs sid : ∀ w, sid ∈ issued w → sid ∈ issued (run evs w).
Proof.
  induction evs as [|ev rest IH]; intros w Hin; [done|].
  apply (IH _ (step_issued_mono ev w sid Hin)).
Qed.

Lemma run_absent evs sid : ∀ w,
  fresh_ids evs w → sid ∈ issued w → transports w !! sid = None →
  transports (run evs w) !! sid = None.
Proof.
  induction evs as [|ev rest IH]; intros w Hfresh Hin Hnone; [done|].
  destruct Hfresh as [Hev Hrest].
  apply (IH _ Hrest).
  - by apply step_issued_mono.
  - by apply step_absent.
Qed.

Lemma run_bound evs sid t : ∀ w,
  recorded w → fresh_ids evs w → transports w !! sid = Some t →
  transports (run evs w) !! sid = Some t ∨ transports (run evs w) !! sid = None.
Proof.
  induction evs as [|ev rest IH]; intros w Hrec Hfresh Hsome; [by left|].
  destruct Hfresh as [Hev Hrest].
  destruct (step_bound ev w sid t Hrec Hev Hsome) as [H|H].
  - apply (IH _ (step_recorded ev w Hrec) Hrest H).
  - right. apply (run_absent rest sid _ Hrest); [|done].
    apply step_issued_mono, Hrec. by rewrite Hsome.
Qed.

Lemma recorded0 : recorded router0.
Proof. intros sid [t Ht]. simpl in Ht. by rewrite lookup_empty in Ht. Qed.

Lemma truthy_nonempty sid : sid ≠ "" → truthy (Some sid) = true.
Proof.
  intros Hne. simpl. apply negb_true_iff, String.eqb_neq. done.
Qed.

(** What the router answers to an identifier it does not know. *)
Lemma post_unknown req b w sid :
  mcp_session_id req = Some sid → truthy (Some sid) = true →
  transports w !! sid = None →
  post req b w = (w, JsonRpcError 400 (-32000) "No valid session ID"
                       (id_or_null (body_id req))).
Proof. intros Hh Ht Hnone. unfold post. by rewrite Hh, Ht, Hnone. Qed.

Lemma get_unknown req b w sid :
  mcp_session_id req = Some sid → transports w !! sid = None →
  get req b w = (w, JsonRpcError 400 (-32000) "No valid session ID" IdNull).
Proof.
  intros Hh Hnone. unfold get. rewrite Hh, Hnone.
  by destruct (negb (truthy (Some sid))).
Qed.

(** C4.  A POST or GET whose [mcp-session-id] header names an identifier
    (a non-empty string) that the registry does not hold is answered with
    status 400 and code -32000, with the request's [id] echoed on POST and
    [null] on GET, and the router is left exactly as it was. *)
Theorem unknown_session_is_rejected (req : Request) (b : Behaviour)
    (w : Router) (sid : string) :
  mcp_session_id req = Some sid → sid ≠ "" →
  transports w !! sid = None →
  post req b w = (w, JsonRpcError 400 (-32000) "No valid session ID"
                       (id_or_null (body_id req))) ∧
  get req b w = (w, JsonRpcError 400 (-32000) "No valid session ID" IdNull).
Proof.
  intros Hh Hne Hnone. split.
  - eapply post_unknown; [done| |done]. by apply truthy_nonempty.
  - by eapply get_unknown.
Qed.

Lemma unknown_session_is_rejected_witness :
  let w := run [Post (request None) (initialises "s-1")] router0 in
  post (request (Some "s-2")) answers w
    = (w, JsonRpcError 400 (-32000) "No valid session ID" (IdNumber 1)) ∧
  get (request (Some "s-2")) answers w
    = (w, JsonRpcError 400 (-32000) "No valid session ID" IdNull).
Proof.
  intros w.
  apply (unknown_session_is_rejected (request (Some "s-2")) answers w "s-2");
    [reflexivity|discriminate|vm_compute; reflexivity].
Defined.

(** A DELETE that went through found the identifier, which is then gone. *)
Lemma terminate_success req b w w' t sid :
  mcp_session_id req = Some sid →
  terminate req b w = (w', FromTransport t None) →
  transports w !! sid = Some t ∧ transports w' !! sid = None ∧
  issued w' = issued w.
Proof.
  intros Hh. unfold terminate. rewrite Hh.
  destruct (negb (truthy (Some sid))); [discriminate|].
  destruct (transports w !! sid) as [t'|] eqn:Hs; [|discriminate].
  destruct (raises b); [discriminate|].
  intros [= <- <-]. split; [done|]. simpl. split; [apply lookup_delete_eq|].
  by destruct (closing_rest b t' w) as (_ & _ & H).
Qed.

(** C5.  After any history, a DELETE for [sid] that goes through leaves the
    registry without [sid]; and after any further events, as long as the
    generator does not return an identifier twice, a POST or GET bearing
    [sid] is answered with status 400 and changes nothing. *)
Theorem terminated_session_is_rejected (evs1 evs2 : list event)
    (req : Request) (b : Behaviour) (sid : string) (t : nat) (w2 : Router) :
  mcp_session_id req = Some sid →
  terminate req b (run evs1 router0) = (w2, FromTransport t None) →
  fresh_ids evs2 w2 →
  transports w2 !! sid = None ∧
  ∀ req' b', mcp_session_id req' = Some sid →
    post req' b' (run evs2 w2)
      = (run evs2 w2, JsonRpcError 400 (-32000) "No valid session ID"
                        (id_or_null (body_id req'))) ∧
    get req' b' (run evs2 w2)
      = (run evs2 w2, JsonRpcError 400 (-32000) "No valid session ID" IdNull).
Proof.
  intros Hh Hdel Hfresh.
  assert (Htruthy : truthy (Some sid) = true).
  { revert Hdel. unfold terminate. rewrite Hh.
    by destruct (truthy (Some sid)). }
  destruct (terminate_success _ _ _ _ _ _ Hh Hdel) as (Hwas & Hgone & Hiss).
  split; [done|]. intros req' b' Hh'.
  assert (Hnone : transports (run evs2 w2) !! sid = None).
  { apply run_absent; [done| |done]. rewrite Hiss.
    apply (run_recorded evs1 router0 recorded0). by rewrite Hwas. }
  split; [by eapply post_unknown|by eapply get_unknown].
Qed.

Lemma terminated_session_is_rejected_witness :
  let w2 := fst (terminate (request (Some "s-1")) answers_and_closes
                   (run [Post (request None) (initialises "s-1")] router0)) in
  let w3 := run [Post (request None) (initialises "s-2")] w2 in
  transports w2 !! "s-1" = None ∧
  ∀ req' b', mcp_session_id req' = Some "s-1" →
    post req' b' w3
      = (w3, JsonRpcError 400 (-32000) "No valid session ID"
               (id_or_null (body_id req'))) ∧
    get req' b' w3
      = (w3, JsonRpcError 400 (-32000) "No valid session ID" IdNull).
Proof.
  intros w2 w3.
  apply (terminated_session_is_rejected
           [Post (request None) (initialises "s-1")]
           [Post (request None) (initialises "s-2")]
           (request (Some "s-1")) answers_and_closes "s-1" 0 w2).
  - reflexivity.
  - vm_compute. reflexivity.
  - simpl. split; [|done]. vm_compute. set_solver.
Defined.

(** C7.  Along any history in which the generator does not return an
    identifier twice: once [sid] is bound to transport [t], it is at every
    later moment either still bound to [t] or absent, and once absent it is
    absent for good, so it is never bound to another transport and its
    entry goes away at most once. *)
Theorem session_binding_is_stable (evs1 evs2 evs3 : list event)
    (sid : string) (t : nat) :
  fresh_ids (evs1 ++ evs2 ++ evs3) router0 →
  transports (run evs1 router0) !! sid = Some t →
  (transports (run (evs1 ++ evs2) router0) !! sid = Some t ∨
   transports (run (evs1 ++ evs2) router0) !! sid = None) ∧
  (transports (run (evs1 ++ evs2) router0) !! sid = None →
   transports (run (evs1 ++ evs2 ++ evs3) router0) !! sid = None).
Proof.
  intros Hfresh Hbound.
  apply fresh_ids_app in Hfresh as [_ Hfresh].
  apply fresh_ids_app in Hfresh as [H2 H3].
  rewrite app_assoc, !run_app.
  assert (Hrec : recorded (run evs1 router0))
    by apply (run_recorded evs1 router0 recorded0).
  split.
  - by apply run_bound.
  - intros Hnone. apply run_absent; [done| |done].
    apply run_issued_mono, Hrec. by rewrite Hbound.
Qed.

Lemma session_binding_is_stable_witness :
  let evs1 := [Post (request None) (initialises "s-1")] in
  let evs2 := [Post (request (Some "s-1")) answers;
               Delete (request (Some "s-1")) answers_and_closes] in
  let evs3 := [ServerClosed 0; Post (request None) (initialises "s-2")] in
  (transports (run (evs1 ++ evs2) router0) !! "s-1" = Some 0 ∨
   transports (run (evs1 ++ evs2) router0) !! "s-1" = None) ∧
  (transports (run (evs1 ++ evs2) router0) !! "s-1" = None →
   transports (run (evs1 ++ evs2 ++ evs3) router0) !! "s-1" = None).
Proof.
  intros evs1 evs2 evs3.
  apply (session_binding_is_stable evs1 evs2 evs3 "s-1" 0).
  - simpl. repeat split; vm_compute; set_solver.
  - vm_compute. reflexivity.
Defined.


(** ** Shutdown *)

Lemma consistent_shrink w w' :
  consistent w →
  (∀ sid t, transports w' !! sid = Some t → transports w !! sid = Some t) →
  sessionId w' = sessionId w → (next_transport w ≤ next_transport w')%nat →
  consistent w'.
Proof.
  intros [Hreg Halloc] Hsub Hsid Hnext. split.
  - intros sid t Ht. rewrite Hsid. by apply Hreg, Hsub.
  - intros t sid Ht. rewrite Hsid in Ht. apply Halloc in Ht. lia.
Qed.

Lemma onclose_consistent t w : consistent w → consistent (onclose t w).
Proof.
  intros Hc. destruct (onclose_rest t w) as (Hs & Hn & _).
  apply (consistent_shrink w); [done| |done|lia].
  intros sid t' Ht'. by destruct (onclose_lookup t w sid) as [H|H]; rewrite H in Ht'.
Qed.

Lemma closing_consistent b t w : consistent w → consistent (closing b t w).
Proof. unfold closing. destruct (closes b); [apply onclose_consistent|done]. Qed.

Lemma delete_consistent sid w :
  consistent w → consistent (with_transports (delete sid (transports w)) w).
Proof.
  intros Hc. apply (consistent_shrink w); [done| |done|done].
  intros sid' t Ht. simpl in Ht. by apply lookup_delete_Some in Ht as [_ ?].
Qed.

Lemma onsessioninitialized_consistent sid w :
  consistent w →
  consistent (onsessioninitialized sid (next_transport w) (snd (new_transport w))).
Proof.
  intros [Hreg Halloc]. split; simpl.
  - intros sid' t Ht. destruct (decide (sid = sid')) as [->|Hne].
    + rewrite lookup_insert_eq in Ht. injection Ht as <-.
      by rewrite lookup_insert_eq.
    + rewrite lookup_insert_ne in Ht by done.
      rewrite lookup_insert_ne; [by apply Hreg|].
      intros <-. apply Hreg, Halloc in Ht. lia.
  - intros t sid' Ht. destruct (decide (next_transport w = t)) as [<-|Hne]; [lia|].
    rewrite lookup_insert_ne in Ht by done. apply Halloc in Ht. lia.
Qed.

Lemma forward_consistent t b caught w :
  consistent w → consistent (fst (forward t b caught w)).
Proof.
  intros Hc. unfold forward. destruct (raises b); simpl;
    by apply closing_consistent.
Qed.

Lemma initialize_consistent b w :
  consistent w → consistent (fst (initialize b w)).
Proof.
  intros Hc. unfold initialize. simpl.
  assert (Hnew : consistent (snd (new_transport w))).
  { apply (consistent_shrink w); simpl; auto. }
  destruct (connect_raises b); simpl; [done|].
  destruct (raises b); simpl; apply closing_consistent;
    (destruct (session b); [by apply onsessioninitialized_consistent|done]).
Qed.

Lemma step_consistent ev w : consistent w → consistent (fst (step ev w)).
Proof.
  intros Hc. destruct ev as [req b|req b|req b|t]; simpl.
  - unfold post. destruct (mcp_session_id req) as [s|];
      [|by apply initialize_consistent].
    destruct (negb (truthy (Some s))); [by apply initialize_consistent|].
    destruct (transports w !! s) as [t|]; [|done].
    by apply forward_consistent.
  - unfold get. destruct (mcp_session_id req) as [s|]; [|done].
    destruct (negb (truthy (Some s))); [done|].
    destruct (transports w !! s) as [t|]; [|done].
    by apply forward_consistent.
  - unfold terminate. destruct (mcp_session_id req) as [s|]; [|done].
    destruct (negb (truthy (Some s))); [done|].
    destruct (transports w !! s) as [t|]; [|done].
    destruct (raises b); simpl; [by apply closing_consistent|].
    by apply delete_consistent, closing_consistent.
  - by apply onclose_consistent.
Qed.

Lemma run_consistent evs : ∀ w, consistent w → consistent (run evs w).
Proof.
  induction evs as [|ev rest IH]; intros w Hc; [done|].
  apply (IH _ (step_consistent ev w Hc)).
Qed.

Lemma consistent0 : consistent router0.
Proof. split; simpl; intros ? ? H; by rewrite lookup_empty in H. Qed.





(** A transport that initialises a session and closes in the same call
    leaves nothing registered, although its answer carries the identifier. *)
Example initialising_and_closing_registers_nothing :
  post (request None)
       {| connect_raises := None; session := Some "s-1"; closes := true;
          raises := None |} router0
  = ({| transports := ∅; sessionId := {[ 0 := "s-1" ]};
        next_transport := 1; issued := {[ "s-1" ]} |},
     FromTransport 0 (Some "s-1")).
Proof. vm_compute. done. Qed.

(** Closing a registered transport removes at most its own entry. *)
Lemma close_one_lookup o f sid t s sid' :
  consistent (router s) → transports (router s) !! sid = Some t → sid' ≠ sid →
  transports (router (close_one o f t s)) !! sid'
  = transports (router s) !! sid'.
Proof.
  intros [Hreg _] Ht Hne.
  assert (Hr : transports (if f t then onclose t (router s) else router s) !! sid'
               = transports (router s) !! sid').
  { destruct (f t); [|done]. unfold onclose. rewrite (Hreg _ _ Ht).
    destruct (truthy (Some sid) && bool_decide (is_Some (transports (router s) !! sid)));
      [|done].
    simpl. by apply lookup_delete_ne. }
  unfold close_one. by destruct (o t).
Qed.

Lemma close_one_consistent o f t s :
  consistent (router s) → consistent (router (close_one o f t s)).
Proof.
  intros Hc.
  assert (consistent (if f t then onclose t (router s) else router s)).
  { destruct (f t); [by apply onclose_consistent|done]. }
  unfold close_one. by destruct (o t).
Qed.

Lemma close_one_closed o f t s : closed (close_one o f t s) = t :: closed s.
Proof. unfold close_one. by destruct (o t). Qed.

Lemma for_each_keeps o f entries : ∀ s t,
  t ∈ closed s → t ∈ closed (for_each o f entries s).
Proof.
  induction entries as [|[sid t'] rest IH]; intros s t Hin; simpl; [done|].
  destruct (transports (router s) !! sid) as [t''|]; [|by apply IH].
  apply IH. rewrite close_one_closed. by right.
Qed.

(** [forEach] calls [close] on every transport of the registry. *)
Lemma for_each_closes o f entries : ∀ s,
  NoDup entries.*1 → consistent (router s) →
  (∀ sid t, (sid, t) ∈ entries → transports (router s) !! sid = Some t) →
  ∀ sid t, (sid, t) ∈ entries → t ∈ closed (for_each o f entries s).
Proof.
  induction entries as [|[sid0 t0] rest IH]; intros s Hnd Hc Hall sid t Hin.
  { by apply elem_of_nil in Hin. }
  simpl in Hnd. apply NoDup_cons in Hnd as [Hfirst Hnd].
  simpl. rewrite (Hall sid0 t0) by left.
  apply elem_of_cons in Hin as [[= -> ->]|Hin].
  - apply for_each_keeps. rewrite close_one_closed. by left.
  - apply (IH (close_one o f t0 s) Hnd) with (sid := sid);
      [by apply close_one_consistent| |done].
    intros sid' t' Hin'.
    rewrite (close_one_lookup o f sid0 t0 s sid' Hc); [by apply Hall; right| |].
    + by apply Hall; left.
    + intros ->. apply Hfirst. apply list_elem_of_fmap. by exists (sid0, t').
Qed.

(** Shutdown reaches every open transport and ends the process with
    code 0, whatever the closes do. *)
Lemma sigint_closes_all o f w sid t :
  consistent w → transports w !! sid = Some t →
  t ∈ closed (sigint o f w) ∧ exit_code (sigint o f w) = Some 0%Z.
Proof.
  intros Hc Ht. split; [|done]. unfold sigint. simpl.
  apply (for_each_closes o f _ _ (NoDup_fst_map_to_list _)) with (sid := sid);
    simpl; [done| |by apply elem_of_map_to_list].
  intros sid' t' Hin. by apply elem_of_map_to_list in Hin.
Qed.

(** What [forEach] writes to the console: one error line per call of
    [close] that threw, and nothing for a promise that is rejected. *)
Lemma for_each_console o f entries : ∀ s line,
  line ∈ console (for_each o f entries s) →
  line ∈ console s ∨
  ∃ t e, o t = CloseThrows e ∧ line = Error "Error closing transport:" e.
Proof.
  induction entries as [|[sid t] rest IH]; intros s line Hin; simpl in Hin;
    [by left|].
  destruct (transports (router s) !! sid) as [t'|]; [|by apply IH].
  apply IH in Hin as [Hin|Hin]; [|by right].
  unfold close_one in Hin. destruct (o t') as [|e|e] eqn:Ho; simpl in Hin; auto.
  apply elem_of_cons in Hin as [->|Hin]; [right; eauto|by left].
Qed.

Lemma sigint_console o f w line :
  line ∈ console (sigint o f w) →
  line = Log "Received SIGINT, shutting down gracefully..." ∨
  ∃ t e, o t = CloseThrows e ∧ line = Error "Error closing transport:" e.
Proof.
  unfold sigint. simpl. intros Hin.
  apply for_each_console in Hin as [Hin|Hin]; [|by right].
  left. simpl in Hin. by apply list_elem_of_singleton in Hin.
Qed.

(** A [close] that throws in the call itself is caught and logged on the
    spot. *)
Example sigint_logs_thrown_close :
  console (sigint (fun _ => CloseThrows "not open") (fun _ => false)
             (run [Post (request None) (initialises "s-1")] router0))
  = [Error "Error closing transport:" "not open";
     Log "Received SIGINT, shutting down gracefully..."].
Proof. vm_compute. done. Qed.

(** C9, the code at the failing input.  One session is open and its
    transport's [close()] returns a promise that is rejected.  [close] is
    called and the process exits with code 0, but the callback is still
    suspended at its [await] when [process.exit] runs: its [catch] block
    never runs and the console holds no error line. *)
Theorem sigint_drops_rejected_close :
  let w := run [Post (request None) (initialises "s-1")] router0 in
  let s := sigint (fun _ => CloseRejects "socket gone") (fun _ => true) w in
  closed s = [0] ∧
  console s = [Log "Received SIGINT, shutting down gracefully..."] ∧
  suspended s = [0] ∧
  exit_code s = Some 0%Z.
Proof. vm_compute. done. Qed.

End HttpSpec.

(* ===================================================================== *)
(** * Further properties of the backend-connection guard                  *)
(* ===================================================================== *)

Module GuardExtra.
Import Guard GuardSpec.

(** Overwriting one slot moves one caller from one class to another. *)
Lemma count_insert p (l : list caller) i x y :
  l !! i = Some x →
  count p (<[i:=y]> l) + (if p x then 1 else 0)
  = count p l + (if p y then 1 else 0).
Proof.
  revert i. induction l as [|t rest IH]; intros [|i] Hi; simpl in *;
    try discriminate.
  - injection Hi as ->. lia.
  - specialize (IH i Hi). lia.
Qed.

Lemma count_replicate p n t :
  count p (replicate n t) = if p t then n else 0.
Proof.
  induction n as [|n IH]; simpl; [by destruct (p t)|].
  rewrite IH. by destruct (p t).
Qed.

Lemma count_le_length p (l : list caller) : (count p l ≤ length l)%nat.
Proof. induction l as [|t rest IH]; simpl; [lia|]. destruct (p t); lia. Qed.

Lemma step_exclusive ev w w' : step ev w = Some w' → exclusive w → exclusive w'.
Proof.
  unfold exclusive. intros Hstep Hex.
  destruct ev as [i|i|i r|i r]; simpl in Hstep.
  - destruct (at_point i Fresh w) eqn:Hat; [|discriminate].
    injection Hstep as <-. apply at_point_lookup in Hat.
    unfold enter. destruct (initialized (flags w)).
    { simpl. pose proof (count_insert in_flight _ i _ Returned Hat). simpl in *. lia. }
    destruct (initializing (flags w)) eqn:Hg.
    { simpl. rewrite Hg.
      pose proof (count_insert in_flight _ i _ Polling Hat). simpl in *. lia. }
    simpl. destruct (prechecks (env w)) as [t0|]; simpl.
    + pose proof (count_insert in_flight _ i _ (Threw (as_error t0)) Hat).
      simpl in *. lia.
    + pose proof (count_insert in_flight _ i _ AwaitInit Hat). simpl in *. lia.
  - destruct (at_point i Polling w) eqn:Hat; [|discriminate].
    injection Hstep as <-. apply at_point_lookup in Hat.
    unfold wake. destruct (initializing (flags w)) eqn:Hg; [by rewrite Hg|].
    destruct (initializationError (flags w)) as [e|]; simpl; rewrite Hg.
    + pose proof (count_insert in_flight _ i _ (Threw e) Hat). simpl in *. lia.
    + pose proof (count_insert in_flight _ i _ Returned Hat). simpl in *. lia.
  - destruct (at_point i AwaitInit w) eqn:Hat; [|discriminate].
    injection Hstep as <-. apply at_point_lookup in Hat.
    destruct r as [t0|]; simpl.
    + pose proof (count_insert in_flight _ i _ (Threw (as_error t0)) Hat).
      simpl in *. destruct (initializing (flags w)); lia.
    + pose proof (count_insert in_flight _ i _ AwaitDownload Hat).
      simpl in *. lia.
  - destruct (at_point i AwaitDownload w) eqn:Hat; [|discriminate].
    injection Hstep as <-. apply at_point_lookup in Hat.
    destruct r as [t0|]; simpl.
    + pose proof (count_insert in_flight _ i _ (Threw (as_error t0)) Hat).
      simpl in *. destruct (initializing (flags w)); lia.
    + pose proof (count_insert in_flight _ i _ Returned Hat).
      simpl in *. destruct (initializing (flags w)); lia.
Qed.

(** X1.  Whatever the schedule, concurrent or not: at every moment at most
    one caller is between [api.init] and the end of its [try] block, and
    [initializing] is true exactly while there is one. *)
Theorem one_attempt_in_flight (e : Env) (n : nat) (evs : list event) (w : World) :
  run evs (init_world e n) = Some w →
  (count in_flight (callers w) ≤ 1)%nat ∧
  (initializing (flags w) = true ↔ count in_flight (callers w) = 1).
Proof.
  intros Hrun.
  assert (Hex : exclusive w).
  { apply (run_invariant exclusive step_exclusive _ _ _ Hrun).
    unfold exclusive. simpl. by rewrite count_replicate. }
  unfold exclusive in Hex. rewrite Hex.
  destruct (initializing (flags w)); split; try lia; split; (done || lia).
Qed.

Lemma one_attempt_in_flight_witness :
  let w := {| env := env_ok;
              flags := {| initialized := false; initializing := true;
                          initializationError := Some "bad password" |};
              callers := [Threw "bad password"; Threw "bad password"; AwaitDownload];
              init_calls := 2; download_calls := 1 |} in
  (count in_flight (callers w) ≤ 1)%nat ∧
  (initializing (flags w) = true ↔ count in_flight (callers w) = 1).
Proof.
  intros w.
  apply (one_attempt_in_flight env_ok 3
           [Call 0; Call 1; InitSettled 0 (Some (ThrownError "bad password"));
            Tick 1; Call 2; InitSettled 2 None] w).
  reflexivity.
Defined.

Ltac moved Hat y :=
  pose proof (count_insert awaiting_init _ _ _ y Hat);
  pose proof (count_insert awaiting_download _ _ _ y Hat);
  pose proof (count_insert called _ _ _ y Hat);
  simpl in *.

Ltac still_called Hr :=
  repeat split;
  first [ lia
        | intros [?|?];
          first [ lia | congruence
                | apply Hr; first [ left; congruence | right; lia ] ] ].

Lemma step_accounted ev w w' : step ev w = Some w' → accounted w → accounted w'.
Proof.
  unfold accounted. intros Hstep (Hd & Hi & Hr).
  destruct ev as [i|i|i r|i r]; simpl in Hstep.
  - destruct (at_point i Fresh w) eqn:Hat; [|discriminate].
    injection Hstep as <-. apply at_point_lookup in Hat.
    unfold enter. destruct (initialized (flags w)) eqn:Hini.
    { moved Hat Returned. still_called Hr. }
    destruct (initializing (flags w)) eqn:Hg.
    { moved Hat Polling. still_called Hr. }
    simpl. destruct (prechecks (env w)) as [t0|]; simpl.
    + moved Hat (Threw (as_error t0)). still_called Hr.
    + moved Hat AwaitInit. still_called Hr.
  - destruct (at_point i Polling w) eqn:Hat; [|discriminate].
    injection Hstep as <-. apply at_point_lookup in Hat.
    unfold wake. destruct (initializing (flags w)); [done|].
    destruct (initializationError (flags w)) as [e|]; simpl.
    + moved Hat (Threw e). still_called Hr.
    + moved Hat Returned. still_called Hr.
  - destruct (at_point i AwaitInit w) eqn:Hat; [|discriminate].
    injection Hstep as <-. apply at_point_lookup in Hat.
    destruct r as [t0|]; simpl.
    + moved Hat (Threw (as_error t0)). still_called Hr.
    + moved Hat AwaitDownload. still_called Hr.
  - destruct (at_point i AwaitDownload w) eqn:Hat; [|discriminate].
    injection Hstep as <-. apply at_point_lookup in Hat.
    assert (1 ≤ download_calls w)%nat.
    { apply Hr. right. moved Hat Fresh. lia. }
    destruct r as [t0|]; simpl.
    + moved Hat (Threw (as_error t0)). still_called Hr.
    + moved Hat Returned. still_called Hr.
Qed.

Lemma init_accounted e n : accounted (init_world e n).
Proof.
  unfold accounted. simpl. rewrite !count_replicate. simpl.
  repeat split; first [lia | intros [?|?]; [done|lia]].
Qed.

Lemma step_length ev w w' :
  step ev w = Some w' → length (callers w') = length (callers w).
Proof.
  intros Hstep. destruct ev as [i|i|i r|i r]; simpl in Hstep.
  - destruct (at_point i Fresh w); [|discriminate]. injection Hstep as <-.
    unfold enter. destruct (initialized (flags w)); [apply length_insert|].
    destruct (initializing (flags w)); [apply length_insert|].
    simpl. destruct (prechecks (env w)); apply length_insert.
  - destruct (at_point i Polling w); [|discriminate]. injection Hstep as <-.
    unfold wake. destruct (initializing (flags w)); [done|].
    destruct (initializationError (flags w)); apply length_insert.
  - destruct (at_point i AwaitInit w); [|discriminate]. injection Hstep as <-.
    destruct r; apply length_insert.
  - destruct (at_point i AwaitDownload w); [|discriminate]. injection Hstep as <-.
    destruct r; apply length_insert.
Qed.

(** X2.  Whatever the schedule, [api.downloadBudget] was called at most as
    often as [api.init], [api.init] at most once per caller that has
    called, and so at most N times for N callers: a caller never runs the
    handshake twice, and a waiting caller never runs it. *)
Theorem handshakes_are_accounted (e : Env) (n : nat) (evs : list event) (w : World) :
  run evs (init_world e n) = Some w →
  (download_calls w ≤ init_calls w)%nat ∧
  (init_calls w ≤ count called (callers w))%nat ∧
  (count called (callers w) ≤ n)%nat.
Proof.
  intros Hrun.
  destruct (run_invariant accounted step_accounted _ _ _ Hrun (init_accounted e n))
    as (Hd & Hi & _).
  assert (Hlen : length (callers w) = n).
  { apply (run_invariant (λ w, length (callers w) = n)
             (λ ev w w' H Hw, eq_trans (step_length ev w w' H) Hw) _ _ _ Hrun).
    apply length_replicate. }
  pose proof (count_le_length called (callers w)). lia.
Qed.

Lemma handshakes_are_accounted_witness :
  let w := {| env := env_ok;
              flags := {| initialized := false; initializing := true;
                          initializationError := Some "bad password" |};
              callers := [Threw "bad password"; Threw "bad password";
                          AwaitDownload; Fresh];
              init_calls := 2; download_calls := 1 |} in
  (download_calls w ≤ init_calls w)%nat ∧
  (init_calls w ≤ count called (callers w))%nat ∧
  (count called (callers w) ≤ 4)%nat.
Proof.
  intros w.
  apply (handshakes_are_accounted env_ok 4
           [Call 0; Call 1; InitSettled 0 (Some (ThrownError "bad password"));
            Tick 1; Call 2; InitSettled 2 None] w).
  reflexivity.
Defined.

(** X3.  Whatever the schedule, a caller has returned only after a
    handshake went through: the guard is ready, and both [api.init] and
    [api.downloadBudget] were called at least once. *)
Theorem return_needs_completed_handshake (e : Env) (n : nat)
    (evs : list event) (w : World) (i : nat) :
  run evs (init_world e n) = Some w →
  callers w !! i = Some Returned →
  initialized (flags w) = true ∧
  (1 ≤ init_calls w)%nat ∧ (1 ≤ download_calls w)%nat.
Proof.
  intros Hrun Hret.
  assert (Hini : initialized (flags w) = true)
    by by eapply returned_initialized.
  destruct (run_invariant accounted step_accounted _ _ _ Hrun (init_accounted e n))
    as (Hd & _ & Hr).
  specialize (Hr (or_introl Hini)). repeat split; [done|lia|done].
Qed.

Lemma return_needs_completed_handshake_witness :
  let w := {| env := env_ok;
              flags := {| initialized := true; initializing := false;
                          initializationError := Some "bad password" |};
              callers := [Threw "bad password"; Returned; Threw "bad password"];
              init_calls := 2; download_calls := 1 |} in
  initialized (flags w) = true ∧
  (1 ≤ init_calls w)%nat ∧ (1 ≤ download_calls w)%nat.
Proof.
  intros w.
  apply (return_needs_completed_handshake env_ok 3
           [Call 0; InitSettled 0 (Some (ThrownError "bad password"));
            Call 1; Call 2; InitSettled 1 None; DownloadSettled 1 None; Tick 2]
           w 1); reflexivity.
Defined.

Lemma unset_variable_prechecks e :
  truthy (ACTUAL_SERVER_URL e) = false ∨
  truthy (ACTUAL_PASSWORD e) = false ∨
  truthy (ACTUAL_BUDGET_SYNC_ID e) = false →
  ∃ msg, msg ∈ not_set_messages ∧ prechecks e = Some (ThrownError msg).
Proof.
  unfold prechecks, not_set_messages.
  destruct (truthy (ACTUAL_SERVER_URL e)); simpl;
    [|intros _; eexists; split; [|done]; set_solver].
  destruct (truthy (ACTUAL_PASSWORD e)); simpl;
    [|intros _; eexists; split; [|done]; set_solver].
  destruct (truthy (ACTUAL_BUDGET_SYNC_ID e)); simpl;
    [|intros _; eexists; split; [|done]; set_solver].
  intros [?|[?|?]]; discriminate.
Qed.

(** X4.  If one of ACTUAL_SERVER_URL, ACTUAL_PASSWORD and
    ACTUAL_BUDGET_SYNC_ID is unset or empty, then whatever the schedule
    neither [api.init] nor [api.downloadBudget] is ever called, the guard
    never becomes ready, and every caller that has called has thrown one of
    the three "not set" messages. *)
Theorem unset_variable_blocks_handshake (e : Env) (n : nat)
    (evs : list event) (w : World) :
  truthy (ACTUAL_SERVER_URL e) = false ∨
  truthy (ACTUAL_PASSWORD e) = false ∨
  truthy (ACTUAL_BUDGET_SYNC_ID e) = false →
  run evs (init_world e n) = Some w →
  init_calls w = 0 ∧ download_calls w = 0 ∧
  initialized (flags w) = false ∧ initializing (flags w) = false ∧
  ∀ i t, callers w !! i = Some t →
    t = Fresh ∨ ∃ msg, msg ∈ not_set_messages ∧ t = Threw msg.
Proof.
  intros Hunset Hrun.
  destruct (unset_variable_prechecks e Hunset) as (msg & Hmsg & Hpre).
  assert (H0 : holds PreFail (init_world e n)).
  { exists (ThrownError msg). simpl. repeat split; auto.
    intros j t Hj. apply lookup_replicate in Hj as [-> _]. by left. }
  assert (Henv : env w = e).
  { apply (run_invariant (λ w, env w = e)) with (evs := evs) (w := init_world e n);
      [|done|done].
    intros ev w1 w2 Hstep <-. destruct ev as [i|i|i r|i r]; simpl in Hstep.
    - destruct (at_point i Fresh w1); [|discriminate]. injection Hstep as <-.
      unfold enter. destruct (initialized (flags w1)); [done|].
      destruct (initializing (flags w1)); [done|].
      simpl. by destruct (prechecks (env w1)).
    - destruct (at_point i Polling w1); [|discriminate]. injection Hstep as <-.
      unfold wake. destruct (initializing (flags w1)); [done|].
      by destruct (initializationError (flags w1)).
    - destruct (at_point i AwaitInit w1); [|discriminate]. injection Hstep as <-.
      by destruct r.
    - destruct (at_point i AwaitDownload w1); [|discriminate].
      injection Hstep as <-. by destruct r. }
  destruct (run_invariant (holds PreFail)
              (λ ev w w' H Hw, prefail_step ev w w' Hw H) _ _ _ Hrun H0)
    as (t0 & Hpre' & Hi & Hg & Hic & Hdc & Hts).
  rewrite Henv, Hpre in Hpre'. injection Hpre' as <-.
  repeat split; auto.
  intros i t Ht. destruct (Hts _ _ Ht) as [->|[-> _]]; [by left|].
  right. by exists msg.
Qed.

Lemma unset_variable_blocks_handshake_witness :
  let w := {| env := env_no_password;
              flags := {| initialized := false; initializing := false;
                          initializationError := Some "ACTUAL_PASSWORD not set" |};
              callers := [Threw "ACTUAL_PASSWORD not set";
                          Threw "ACTUAL_PASSWORD not set"; Fresh];
              init_calls := 0; download_calls := 0 |} in
  init_calls w = 0 ∧ download_calls w = 0 ∧
  initialized (flags w) = false ∧ initializing (flags w) = false ∧
  ∀ i t, callers w !! i = Some t →
    t = Fresh ∨ ∃ msg, msg ∈ not_set_messages ∧ t = Threw msg.
Proof.
  intros w.
  apply (unset_variable_blocks_handshake env_no_password 3 [Call 0; Call 1] w).
  - right. left. reflexivity.
  - reflexivity.
Defined.

(** A caller that has thrown stays where it is when another slot changes. *)
Lemma threw_survives (l : list caller) i x y err :
  l !! i = Some x → (∀ e', x ≠ Threw e') →
  (∃ j, l !! j = Some (Threw err)) → ∃ j, <[i:=y]> l !! j = Some (Threw err).
Proof.
  intros Hi Hx [j Hj]. exists j. rewrite list_lookup_insert_ne; [done|].
  intros <-. rewrite Hi in Hj. injection Hj as ->. by destruct (Hx err).
Qed.

Lemma threw_new (l : list caller) i x err :
  l !! i = Some x → <[i:=Threw err]> l !! i = Some (Threw err).
Proof. intros Hi. apply list_lookup_insert_eq. by eapply lookup_lt_Some. Qed.

Ltac other_slot Hat Hcap Hthrew :=
  split; simpl;
  [ intros err He; eapply threw_survives;
    [exact Hat | intros e' He'; discriminate | by apply Hcap]
  | intros j err Hj; apply lookup_set in Hj as [[_ ?]|[_ Hj]];
    [discriminate | by eapply Hthrew] ].

Ltac captured Hat Hthrew :=
  split; simpl;
  [ intros err [= <-]; eexists; by eapply threw_new | by eauto ].

Lemma step_remembered ev w w' : step ev w = Some w' → remembered w → remembered w'.
Proof.
  unfold remembered. intros Hstep [Hcap Hthrew].
  destruct ev as [i|i|i r|i r]; simpl in Hstep.
  - destruct (at_point i Fresh w) eqn:Hat; [|discriminate].
    injection Hstep as <-. apply at_point_lookup in Hat.
    unfold enter. destruct (initialized (flags w)); [other_slot Hat Hcap Hthrew|].
    destruct (initializing (flags w)); [other_slot Hat Hcap Hthrew|].
    simpl. destruct (prechecks (env w)) as [t0|]; simpl.
    + captured Hat Hthrew.
    + other_slot Hat Hcap Hthrew.
  - destruct (at_point i Polling w) eqn:Hat; [|discriminate].
    injection Hstep as <-. apply at_point_lookup in Hat.
    unfold wake. destruct (initializing (flags w)); [done|].
    destruct (initializationError (flags w)) as [e|] eqn:He; simpl.
    + split; simpl.
      * intros err He'. rewrite He in He'.
        eapply threw_survives; [exact Hat|intros e' H'; discriminate|].
        apply Hcap. by rewrite <- He'.
      * intros j err Hj. rewrite He. eauto.
    + split; simpl.
      * intros err He'. rewrite He in He'. discriminate.
      * intros j err Hj. apply lookup_set in Hj as [[_ ?]|[_ Hj]]; [done|].
        rewrite He. by eapply Hthrew.
  - destruct (at_point i AwaitInit w) eqn:Hat; [|discriminate].
    injection Hstep as <-. apply at_point_lookup in Hat.
    destruct r as [t0|]; simpl.
    + captured Hat Hthrew.
    + other_slot Hat Hcap Hthrew.
  - destruct (at_point i AwaitDownload w) eqn:Hat; [|discriminate].
    injection Hstep as <-. apply at_point_lookup in Hat.
    destruct r as [t0|]; simpl.
    + captured Hat Hthrew.
    + other_slot Hat Hcap Hthrew.
Qed.

(** No step clears the captured error. *)
Lemma step_keeps_error ev w w' :
  step ev w = Some w' → is_Some (initializationError (flags w)) →
  is_Some (initializationError (flags w')).
Proof.
  intros Hstep Hsome. destruct ev as [i|i|i r|i r]; simpl in Hstep.
  - destruct (at_point i Fresh w); [|discriminate]. injection Hstep as <-.
    unfold enter. destruct (initialized (flags w)); [done|].
    destruct (initializing (flags w)); [done|].
    simpl. destruct (prechecks (env w)); simpl; eauto.
  - destruct (at_point i Polling w); [|discriminate]. injection Hstep as <-.
    unfold wake. destruct (initializing (flags w)); [done|].
    destruct Hsome as [e He]. by rewrite He.
  - destruct (at_point i AwaitInit w); [|discriminate]. injection Hstep as <-.
    destruct r; simpl; eauto.
  - destruct (at_point i AwaitDownload w); [|discriminate].
    injection Hstep as <-. destruct r; simpl; eauto.
Qed.

(** X5.  Whatever the schedule: the error the guard holds is the error
    some caller has thrown; a caller has thrown only if the guard holds an
    error; and an error once captured is never cleared, not even by a later
    attempt that succeeds. *)
Theorem captured_error_is_kept (e : Env) (n : nat) (evs evs' : list event)
    (w w' : World) :
  run evs (init_world e n) = Some w →
  run evs' w = Some w' →
  (∀ err, initializationError (flags w) = Some err →
     ∃ i, callers w !! i = Some (Threw err)) ∧
  (∀ i err, callers w !! i = Some (Threw err) →
     is_Some (initializationError (flags w))) ∧
  (is_Some (initializationError (flags w)) →
     is_Some (initializationError (flags w'))).
Proof.
  intros Hrun Hrun'.
  assert (H0 : remembered (init_world e n)).
  { split; simpl; [discriminate|].
    intros i err Hi. by apply lookup_replicate in Hi as [? _]. }
  destruct (run_invariant remembered step_remembered _ _ _ Hrun H0) as [Hc Ht].
  split; [done|]. split; [done|].
  apply (run_invariant (λ w, is_Some (initializationError (flags w)))
           step_keeps_error _ _ _ Hrun').
Qed.

Lemma captured_error_is_kept_witness :
  let w := {| env := env_ok;
              flags := {| initialized := false; initializing := false;
                          initializationError := Some "bad password" |};
              callers := [Threw "bad password"; Fresh];
              init_calls := 1; download_calls := 0 |} in
  let w' := {| env := env_ok;
               flags := {| initialized := true; initializing := false;
                           initializationError := Some "bad password" |};
               callers := [Threw "bad password"; Returned];
               init_calls := 2; download_calls := 1 |} in
  (∀ err, initializationError (flags w) = Some err →
     ∃ i, callers w !! i = Some (Threw err)) ∧
  (∀ i err, callers w !! i = Some (Threw err) →
     is_Some (initializationError (flags w))) ∧
  (is_Some (initializationError (flags w)) →
     is_Some (initializationError (flags w'))).
Proof.
  intros w w'.
  apply (captured_error_is_kept env_ok 2
           [Call 0; InitSettled 0 (Some (ThrownError "bad password"))]
           [Call 1; InitSettled 1 None; DownloadSettled 1 None] w w');
    reflexivity.
Defined.

(** ** A burst of calls, run to its end *)

Lemma run_concat evs1 evs2 w :
  run (evs1 ++ evs2) w
  = match run evs1 w with Some w1 => run evs2 w1 | None => None end.
Proof.
  revert w. induction evs1 as [|ev rest IH]; intros w; simpl; [done|].
  destruct (step ev w); [apply IH|done].
Qed.

Lemma run_cons ev rest w :
  run (ev :: rest) w
  = match step ev w with Some w' => run rest w' | None => None end.
Proof. reflexivity. Qed.

Lemma with_callers_same w : with_callers (callers w) w = w.
Proof. by destruct w. Qed.

(** One and the same event for each of [k] callers in the same state. *)
Lemma sweep (mk : nat → event) (x y : caller) (P : Flags → Prop) :
  (∀ i w, P (flags w) → callers w !! i = Some x →
     step (mk i) w = Some (set_caller i y w)) →
  ∀ k (pre : list caller) w,
    P (flags w) → callers w = (pre ++ replicate k x)%list →
    run (mk <$> seq (length pre) k) w
    = Some (with_callers (pre ++ replicate k y)%list w).
Proof.
  intros Hmk. induction k as [|k IH]; intros pre w HP Hw.
  - simpl in *. rewrite app_nil_r in *. rewrite <- Hw.
    by rewrite with_callers_same.
  - change (mk <$> seq (length pre) (S k))
      with (mk (length pre) :: (mk <$> seq (S (length pre)) k)).
    change (replicate (S k) x) with (x :: replicate k x) in Hw.
    change (replicate (S k) y) with (y :: replicate k y).
    rewrite run_cons, (Hmk (length pre) w HP);
      [|rewrite Hw; by apply list_lookup_middle].
    specialize (IH (pre ++ [y])%list (set_caller (length pre) y w)).
    rewrite length_app, Nat.add_1_r in IH. rewrite IH.
    + f_equal. unfold with_callers. simpl. by rewrite <- app_assoc.
    + done.
    + simpl. rewrite Hw. rewrite insert_app_r_alt by lia.
      rewrite Nat.sub_diag. simpl. by rewrite <- app_assoc.
Qed.

Lemma calls_wait n (pre : list caller) w :
  initialized (flags w) = false → initializing (flags w) = true →
  callers w = (pre ++ replicate n Fresh)%list →
  run (calls (length pre) n) w
  = Some (with_callers (pre ++ replicate n Polling)%list w).
Proof.
  intros Hi Hg Hw.
  apply (sweep Call Fresh Polling
           (λ f, initialized f = false ∧ initializing f = true)); [|done|done].
  intros i w0 [Hi0 Hg0] Hat. simpl. rewrite (lookup_at_point _ _ _ Hat).
  unfold enter. by rewrite Hi0, Hg0.
Qed.

Lemma ticks_finish n (pre : list caller) w f :
  flags w = f → initializing f = false →
  callers w = (pre ++ replicate n Polling)%list →
  run (ticks (length pre) n) w
  = Some (with_callers
            (pre ++ replicate n (match initializationError f with
                                 | Some e => Threw e
                                 | None => Returned
                                 end))%list w).
Proof.
  intros Hf Hg Hw.
  apply (sweep Tick Polling _ (λ f0, f0 = f)); [|done|done].
  intros i w0 Hf0 Hat. simpl. rewrite (lookup_at_point _ _ _ Hat).
  unfold wake. rewrite Hf0, Hg. by destruct (initializationError f).
Qed.

(** X6.  A burst run to its end.  In a process that passes the pre-checks,
    N+1 callers call one after the other before anything else happens, the
    handshake of the first one ends in any of its three ways, and then the
    timer of each of the others fires once.  Every step of that schedule is
    enabled, and at its end all N+1 callers have finished with the verdict
    of that one handshake: all returned, or all threw its error;
    [api.init] was called once. *)
Theorem burst_runs_to_completion (e : Env) (n : nat) (h : handshake) :
  prechecks e = None →
  run (calls 0 (S n) ++ settles h ++ ticks 1 n) (init_world e (S n))
  = Some (settled_world e (S n) h).
Proof.
  intros Hpre. rewrite !run_concat.
  change (calls 0 (S n)) with (Call 0 :: calls 1 n).
  rewrite run_cons. simpl step. unfold enter. simpl. rewrite Hpre.
  rewrite (calls_wait n [AwaitInit]); [|done|done|done].
  destruct h as [t|t|]; simpl.
  - rewrite (ticks_finish n [Threw (as_error t)] _ _ eq_refl); done.
  - rewrite (ticks_finish n [Threw (as_error t)] _ _ eq_refl); done.
  - rewrite (ticks_finish n [Returned] _ _ eq_refl); done.
Qed.

Lemma burst_runs_to_completion_witness :
  run (calls 0 3 ++ settles (DownloadFails (ThrownOther "503")) ++ ticks 1 2)
      (init_world env_ok 3)
  = Some {| env := env_ok;
            flags := {| initialized := false; initializing := false;
                        initializationError := Some "503" |};
            callers := [Threw "503"; Threw "503"; Threw "503"];
            init_calls := 1; download_calls := 1 |}.
Proof.
  apply (burst_runs_to_completion env_ok 2
           (DownloadFails (ThrownOther "503"))).
  reflexivity.
Defined.

End GuardExtra.


(* ===================================================================== *)
(** * Further properties of the tool handlers                             *)
(* ===================================================================== *)

Module ToolsExtra.
Import Tools ToolsSpec.

(** The two handlers that do not look at the schema perform exactly
    one backend operation per call, whatever the arguments are:
    accounts.list always [getAccounts()], transactions.create always
    [addTransactions([args])] with the arguments as given, be they
    [undefined].  The backend's answer comes back as [{ result: answer }]
    and the backend's failure comes back unchanged. *)
Theorem handlers_delegate_once (be : Backend) (args : value) (tr : Trace) :
  call accounts_list be args tr = delegated be GetAccounts tr ∧
  call transactions_create be args tr = delegated be (AddTransactions [args]) tr.
Proof.
  unfold delegated, call, accounts_list, transactions_create, bind, perform, ret.
  split.
  - by destruct (be GetAccounts).
  - by destruct (be (AddTransactions [args])).
Qed.

(** X7.  The handler of the second accounts.list document, for every
    argument: a truthy value that is not an object makes it fail with the
    trace untouched; every other value (an object with any fields, or a
    falsy value such as [null], [undefined], [0], [false] or the empty
    string, which [args || {}] replaces) makes it call the adapter exactly
    once, and always with the empty object, since [z.object({})] strips
    every field. *)
Theorem adapter_only_sees_empty_object (be : Backend) (args : value) (tr : Trace) :
  if value_truthy args && violates ZObjectEmpty args
  then ∃ msg, call accounts_list_adapter be args tr = (Err msg, tr)
  else call accounts_list_adapter be args tr
       = delegated be (AdapterGetAccounts (VObject [])) tr.
Proof.
  unfold delegated, call, accounts_list_adapter, bind, lift, perform, ret, or_else.
  destruct args as [| |b|n|s|items|fields]; simpl; try (by destruct (be _)).
  - destruct b; simpl; [by eexists|by destruct (be _)].
  - destruct (Z.eqb n 0); simpl; [by destruct (be _)|by eexists].
  - destruct (String.eqb s ""); simpl; [by destruct (be _)|by eexists].
  - by eexists.
Qed.

End ToolsExtra.


(* ===================================================================== *)
(** * Further properties of the session router                            *)
(* ===================================================================== *)

Module HttpExtra.
Import Http HttpSpec.

(** X8.  GET and DELETE answer status 400 with code -32000 and [id: null],
    and leave the router as it is, whenever the header is missing, empty,
    or names an identifier the registry does not hold. *)
Theorem get_and_delete_need_known_session (req : Request) (b : Behaviour)
    (w : Router) :
  truthy (mcp_session_id req) = false ∨
  (∃ sid, mcp_session_id req = Some sid ∧ transports w !! sid = None) →
  get req b w = (w, JsonRpcError 400 (-32000) "No valid session ID" IdNull) ∧
  terminate req b w = (w, JsonRpcError 400 (-32000) "No valid session ID" IdNull).
Proof.
  unfold get, terminate. intros [Hfalsy|(sid & Hh & Hnone)].
  - destruct (mcp_session_id req) as [s|]; [|done]. by rewrite Hfalsy.
  - rewrite Hh, Hnone. by destruct (negb (truthy (Some sid))).
Qed.

Lemma get_and_delete_need_known_session_witness :
  get (request (Some "")) answers router0
    = (router0, JsonRpcError 400 (-32000) "No valid session ID" IdNull) ∧
  terminate (request (Some "")) answers router0
    = (router0, JsonRpcError 400 (-32000) "No valid session ID" IdNull).
Proof.
  apply (get_and_delete_need_known_session (request (Some "")) answers router0).
  left. reflexivity.
Defined.

Lemma post_initializes req b w :
  truthy (mcp_session_id req) = false → post req b w = initialize b w.
Proof.
  intros Htr. unfold post. destruct (mcp_session_id req) as [s|]; [|done].
  by rewrite Htr.
Qed.

Lemma initialize_registers b w sid :
  connect_raises b = None → session b = Some sid → closes b = false →
  transports (fst (initialize b w)) = <[sid:=next_transport w]> (transports w) ∧
  sessionId (fst (initialize b w)) = <[next_transport w:=sid]> (sessionId w).
Proof.
  intros Hc Hs Hcl. unfold initialize, closing. simpl.
  rewrite Hc, Hs, Hcl. by destruct (raises b).
Qed.

(** X9.  Register, then look up.  Take a POST without session identifier
    whose transport connected, initialised the non-empty identifier [sid]
    and stayed open during that call (its [handleRequest] may then have
    rejected).  Afterwards every POST and every GET bearing [sid] is
    forwarded to that very transport, whatever the transport then does
    with it; in particular, if the transport stays open and does not
    reject, the answer is the transport's and the router stays as it
    is. *)
Theorem initialised_session_is_served (req req' : Request) (b b' : Behaviour)
    (w : Router) (sid : string) :
  truthy (mcp_session_id req) = false →
  connect_raises b = None → session b = Some sid → closes b = false →
  sid ≠ "" → mcp_session_id req' = Some sid →
  post req' b' (fst (post req b w))
    = forward (next_transport w) b' CaughtError (fst (post req b w)) ∧
  get req' b' (fst (post req b w))
    = forward (next_transport w) b' Swallowed (fst (post req b w)) ∧
  (closes b' = false → raises b' = None →
   post req' b' (fst (post req b w))
     = (fst (post req b w), FromTransport (next_transport w) None) ∧
   get req' b' (fst (post req b w))
     = (fst (post req b w), FromTransport (next_transport w) None)).
Proof.
  intros Htr Hc Hs Hcl Hne Hh'.
  rewrite (post_initializes _ _ _ Htr).
  destruct (initialize_registers b w sid Hc Hs Hcl) as [Hreg _].
  assert (Hpost : post req' b' (fst (initialize b w))
            = forward (next_transport w) b' CaughtError (fst (initialize b w))).
  { unfold post. by rewrite Hh', (truthy_nonempty _ Hne), Hreg, lookup_insert_eq. }
  assert (Hget : get req' b' (fst (initialize b w))
            = forward (next_transport w) b' Swallowed (fst (initialize b w))).
  { unfold get. by rewrite Hh', (truthy_nonempty _ Hne), Hreg, lookup_insert_eq. }
  split; [done|]. split; [done|].
  intros Hcl' Hr'. rewrite Hpost, Hget. unfold forward, closing.
  by rewrite Hcl', Hr'.
Qed.

Lemma initialised_session_is_served_witness :
  let w1 := fst (post (request None) (initialises "s-1") router0) in
  post (request (Some "s-1")) answers_and_closes w1
    = forward 0 answers_and_closes CaughtError w1 ∧
  get (request (Some "s-1")) answers_and_closes w1
    = forward 0 answers_and_closes Swallowed w1 ∧
  (closes answers_and_closes = false → raises answers_and_closes = None →
   post (request (Some "s-1")) answers_and_closes w1
     = (w1, FromTransport 0 None) ∧
   get (request (Some "s-1")) answers_and_closes w1
     = (w1, FromTransport 0 None)).
Proof.
  intros w1.
  apply (initialised_session_is_served (request None) (request (Some "s-1"))
           (initialises "s-1") answers_and_closes router0 "s-1");
    (reflexivity || discriminate).
Defined.

Lemma onclose_registered w t sid t' :
  sessionId w !! t = Some sid → sid ≠ "" → transports w !! sid = Some t' →
  transports (onclose t w) = delete sid (transports w).
Proof.
  intros Hs Hne Ht. unfold onclose.
  rewrite Hs, (truthy_nonempty _ Hne), Ht.
  by rewrite bool_decide_eq_true_2 by eauto.
Qed.

(** X10.  Register, then terminate.  If [sid] was not bound, a POST
    without header whose transport initialises [sid], followed by a DELETE
    for [sid] that goes through, leaves the registry exactly as it was
    before the two, whether or not the transport closed itself on the
    way. *)
Theorem initialise_then_terminate_restores (req req' : Request)
    (b b' : Behaviour) (w : Router) (sid : string) :
  truthy (mcp_session_id req) = false →
  connect_raises b = None → session b = Some sid → closes b = false →
  sid ≠ "" → transports w !! sid = None →
  mcp_session_id req' = Some sid → raises b' = None →
  transports (fst (terminate req' b' (fst (post req b w)))) = transports w ∧
  snd (terminate req' b' (fst (post req b w)))
    = FromTransport (next_transport w) None.
Proof.
  intros Htr Hc Hs Hcl Hne Hnone Hh' Hr'.
  rewrite (post_initializes _ _ _ Htr).
  destruct (initialize_registers b w sid Hc Hs Hcl) as [Hreg Hsid].
  unfold terminate.
  rewrite Hh', (truthy_nonempty _ Hne), Hreg, lookup_insert_eq, Hr'. simpl.
  split; [|done].
  unfold closing. destruct (closes b').
  - rewrite (onclose_registered _ _ sid (next_transport w));
      [|by rewrite Hsid, lookup_insert_eq|done|by rewrite Hreg, lookup_insert_eq].
    rewrite Hreg, delete_delete_eq. by apply delete_insert_id.
  - rewrite Hreg. by apply delete_insert_id.
Qed.

Lemma initialise_then_terminate_restores_witness :
  let w := fst (post (request None) (initialises "s-1") router0) in
  transports (fst (terminate (request (Some "s-2")) answers_and_closes
                     (fst (post (request None) (initialises "s-2") w))))
    = transports w ∧
  snd (terminate (request (Some "s-2")) answers_and_closes
         (fst (post (request None) (initialises "s-2") w)))
    = FromTransport 1 None.
Proof.
  intros w.
  apply (initialise_then_terminate_restores (request None)
           (request (Some "s-2")) (initialises "s-2") answers_and_closes
           w "s-2");
    (reflexivity || discriminate).
Defined.

(** X11.  No freshness needed: an entry that is there after an event was
    there before it, bound to the same transport, unless the event is the
    POST without header during which the generator returned that very
    identifier.  So a dispatch, a DELETE or a server close never creates
    and never rebinds an entry. *)
Theorem only_initialisation_binds (ev : event) (w : Router) (sid : string)
    (t : nat) :
  generates ev ≠ Some sid →
  transports (fst (step ev w)) !! sid = Some t →
  transports w !! sid = Some t.
Proof.
  intros Hgen Hafter.
  destruct (step_lookup ev w sid) as [H|[H|H]]; congruence.
Qed.

Lemma only_initialisation_binds_witness :
  transports (fst (post (request None) (initialises "s-1") router0)) !! "s-1"
  = Some 0.
Proof.
  apply (only_initialisation_binds
           (Post (request (Some "s-1")) answers)
           (fst (post (request None) (initialises "s-1") router0)) "s-1" 0).
  - discriminate.
  - vm_compute. reflexivity.
Defined.

(** X12.  Whatever the history, with or without repeated identifiers: no
    transport is registered under two identifiers; a registered transport
    carries the identifier it is registered under; and it is one of the
    transports the router has built. *)
Theorem registered_transports_are_distinct (evs : list event)
    (sid1 sid2 : string) (t : nat) :
  transports (run evs router0) !! sid1 = Some t →
  transports (run evs router0) !! sid2 = Some t →
  sid1 = sid2 ∧
  sessionId (run evs router0) !! t = Some sid1 ∧
  t < next_transport (run evs router0).
Proof.
  intros H1 H2.
  destruct (run_consistent evs router0 consistent0) as [Hreg Halloc].
  pose proof (Hreg _ _ H1) as Hs1. pose proof (Hreg _ _ H2) as Hs2.
  split; [congruence|]. split; [done|]. by eapply Halloc.
Qed.

Lemma registered_transports_are_distinct_witness :
  "s-2" = "s-2" ∧
  sessionId (run [Post (request None) (initialises "s-1");
                  Post (request None) answers;
                  Post (request None) (initialises "s-2")] router0) !! 2
    = Some "s-2" ∧
  2 < next_transport (run [Post (request None) (initialises "s-1");
                           Post (request None) answers;
                           Post (request None) (initialises "s-2")] router0).
Proof.
  apply (registered_transports_are_distinct
           [Post (request None) (initialises "s-1");
            Post (request None) answers;
            Post (request None) (initialises "s-2")] "s-2" "s-2" 2);
    vm_compute; reflexivity.
Defined.

Lemma initialize_sessionId b w :
  sessionId (fst (initialize b w))
  = match connect_raises b, session b with
    | None, Some sid => <[next_transport w:=sid]> (sessionId w)
    | _, _ => sessionId w
    end.
Proof.
  unfold initialize. simpl. destruct (connect_raises b); simpl; [done|].
  match goal with |- context [closing b ?t ?w0] =>
    destruct (closing_rest b t w0) as (H & _ & _) end.
  destruct (raises b); simpl; rewrite H; by destruct (session b).
Qed.

Lemma step_sessionId ev w :
  sessionId (fst (step ev w))
  = match generates ev with
    | Some sid => <[next_transport w:=sid]> (sessionId w)
    | None => sessionId w
    end.
Proof.
  destruct ev as [req b|req b|req b|t]; simpl.
  - destruct (truthy (mcp_session_id req)) eqn:Htr; simpl.
    + unfold post. destruct (mcp_session_id req) as [s|]; [|done].
      rewrite Htr. simpl.
      destruct (transports w !! s) as [t|]; [|done].
      by destruct (forward_rest t b CaughtError w) as (H & _ & _).
    + rewrite (post_initializes _ _ _ Htr), initialize_sessionId.
      by destruct (connect_raises b), (session b).
  - unfold get. destruct (mcp_session_id req) as [s|]; [|done].
    destruct (negb (truthy (Some s))); [done|].
    destruct (transports w !! s) as [t|]; [|done].
    by destruct (forward_rest t b Swallowed w) as (H & _ & _).
  - unfold terminate. destruct (mcp_session_id req) as [s|]; [|done].
    destruct (negb (truthy (Some s))); [done|].
    destruct (transports w !! s) as [t|]; [|done].
    destruct (closing_rest b t w) as (H & _ & _).
    by destruct (raises b).
  - by destruct (onclose_rest t w) as (H & _ & _).
Qed.

Lemma step_unshared ev w : fresh_step ev w → unshared w → unshared (fst (step ev w)).
Proof.
  unfold fresh_step, unshared. intros Hfresh [Hiss Hinj].
  rewrite step_sessionId, step_issued.
  destruct (generates ev) as [s|]; [|done]. split.
  - intros t sid Ht. apply lookup_insert_Some in Ht as [[_ <-]|[_ Ht]].
    + set_solver.
    + apply Hiss in Ht. set_solver.
  - intros t1 t2 sid H1 H2.
    apply lookup_insert_Some in H1 as [[<- <-]|[Hne1 H1]];
      apply lookup_insert_Some in H2 as [[<- Heq]|[Hne2 H2]]; subst.
    + done.
    + by apply Hiss in H2.
    + by apply Hiss in H1.
    + by eapply Hinj.
Qed.

Lemma run_unshared evs : ∀ w, fresh_ids evs w → unshared w → unshared (run evs w).
Proof.
  induction evs as [|ev rest IH]; intros w Hfresh Hw; [done|].
  destruct Hfresh as [Hev Hrest].
  apply (IH _ Hrest). by apply step_unshared.
Qed.

Lemma unshared0 : unshared router0.
Proof. split; simpl; intros; by rewrite lookup_empty in *. Qed.

(** X13.  As long as the generator does not return an identifier twice,
    closing the server of one transport never removes the session of
    another one. *)
Theorem close_spares_other_sessions (evs : list event) (t t' : nat)
    (sid : string) :
  fresh_ids evs router0 →
  transports (run evs router0) !! sid = Some t' →
  t' ≠ t →
  transports (onclose t (run evs router0)) !! sid = Some t'.
Proof.
  intros Hfresh Hreg Hne.
  destruct (run_consistent evs router0 consistent0) as [Hown _].
  destruct (run_unshared evs router0 Hfresh unshared0) as [_ Hinj].
  unfold onclose.
  destruct (sessionId (run evs router0) !! t) as [s|] eqn:Hs; [|done].
  destruct (truthy (Some s) && _); [|done].
  simpl. rewrite lookup_delete_ne; [done|].
  intros ->. apply Hne. eapply Hinj; [|done]. by apply Hown.
Qed.

Lemma close_spares_other_sessions_witness :
  transports (onclose 0 (run [Post (request None) (initialises "s-1");
                              Post (request None) (initialises "s-2")] router0))
    !! "s-2" = Some 1.
Proof.
  apply (close_spares_other_sessions
           [Post (request None) (initialises "s-1");
            Post (request None) (initialises "s-2")] 0 1 "s-2").
  - simpl. repeat split; vm_compute; set_solver.
  - vm_compute. reflexivity.
  - discriminate.
Defined.

(** Why the generator must not repeat itself: if it returns "s-1" twice,
    the second transport takes over the entry, and closing the server of
    the first transport removes the session of the second. *)
Example repeated_identifier_is_closed_by_the_wrong_server :
  let w := run [Post (request None) (initialises "s-1");
                Post (request None) (initialises "s-1")] router0 in
  transports w !! "s-1" = Some 1 ∧
  transports (onclose 0 w) !! "s-1" = None.
Proof. vm_compute. done. Qed.



(** ** Shutdown, once more *)

(** [forEach] visits the entries in order: the transports it closes are
    the transports of the entries, latest first. *)
Lemma for_each_closed o f (entries : list (string * nat)) : ∀ s,
  NoDup entries.*1 → consistent (router s) →
  (∀ sid t, (sid, t) ∈ entries → transports (router s) !! sid = Some t) →
  closed (for_each o f entries s) = (reverse entries.*2 ++ closed s)%list.
Proof.
  induction entries as [|[sid0 t0] rest IH]; intros s Hnd Hc Hall; [done|].
  simpl in Hnd. apply NoDup_cons in Hnd as [Hfirst Hnd].
  simpl. rewrite (Hall sid0 t0) by left.
  rewrite (IH (close_one o f t0 s) Hnd).
  - by rewrite close_one_closed, reverse_cons, <- app_assoc.
  - by apply close_one_consistent.
  - intros sid' t' Hin'.
    rewrite (close_one_lookup o f sid0 t0 s sid' Hc); [by apply Hall; right| |].
    + by apply Hall; left.
    + intros ->. apply Hfirst. apply list_elem_of_fmap. by exists (sid0, t').
Qed.

(** X15.  SIGINT after any history, whatever the closes do: [close()] is
    called exactly once on every registered transport and on nothing else,
    and the process exits with code 0. *)
Theorem sigint_closes_each_once (evs : list event)
    (o : nat → close_outcome) (f : nat → bool) :
  NoDup (closed (sigint o f (run evs router0))) ∧
  (∀ t, t ∈ closed (sigint o f (run evs router0)) ↔
        ∃ sid, transports (run evs router0) !! sid = Some t) ∧
  length (closed (sigint o f (run evs router0)))
    = size (transports (run evs router0)) ∧
  exit_code (sigint o f (run evs router0)) = Some 0%Z.
Proof.
  pose proof (run_consistent evs router0 consistent0) as Hc.
  set (w := run evs router0) in *.
  assert (Hclosed :
    closed (sigint o f w) = reverse (map_to_list (transports w)).*2).
  { unfold sigint. simpl.
    rewrite (for_each_closed o f _ _ (NoDup_fst_map_to_list _)); simpl.
    - by rewrite app_nil_r.
    - done.
    - intros sid t Hin. by apply elem_of_map_to_list in Hin. }
  rewrite Hclosed. split; [|split; [|split]].
  - rewrite reverse_Permutation.
    apply NoDup_fmap_2_strong; [|apply NoDup_map_to_list].
    intros [sid1 t1] [sid2 t2] H1 H2 Heq. simpl in Heq. subst.
    apply elem_of_map_to_list in H1, H2.
    destruct Hc as [Hown _]. f_equal.
    pose proof (Hown _ _ H1). pose proof (Hown _ _ H2). congruence.
  - intros t. rewrite elem_of_reverse, list_elem_of_fmap. split.
    + intros ([sid t'] & -> & Hin). exists sid. by apply elem_of_map_to_list.
    + intros [sid Hsid]. exists (sid, t). split; [done|].
      by apply elem_of_map_to_list.
  - by rewrite length_reverse, length_fmap, length_map_to_list.
  - done.
Qed.

Lemma for_each_silent o f (entries : list (string * nat)) : ∀ s,
  (∀ t e, o t ≠ CloseThrows e) →
  console (for_each o f entries s) = console s.
Proof.
  induction entries as [|[sid t] rest IH]; intros s Hno; simpl; [done|].
  destruct (transports (router s) !! sid) as [t'|]; [|by apply IH].
  rewrite IH by done. unfold close_one.
  destruct (o t') as [|e|e] eqn:Ho; simpl; try done. by destruct (Hno t' e).
Qed.

(** X16.  What SIGINT writes to the console, whatever the registry holds:
    the banner, and error lines only for calls of [close()] that threw in
    the call itself.  In particular, when every [close()] returns a
    promise, fulfilled or rejected, the banner is all there is. *)
Theorem sigint_logs_only_thrown_closes (o : nat → close_outcome)
    (f : nat → bool) (w : Router) :
  (∀ line, line ∈ console (sigint o f w) →
     line = Log "Received SIGINT, shutting down gracefully..." ∨
     ∃ t e, o t = CloseThrows e ∧ line = Error "Error closing transport:" e) ∧
  ((∀ t e, o t ≠ CloseThrows e) →
     console (sigint o f w)
     = [Log "Received SIGINT, shutting down gracefully..."]).
Proof.
  split.
  - unfold sigint. simpl. intros line Hin.
    apply for_each_console in Hin as [Hin|Hin]; [|by right].
    left. simpl in Hin. by apply list_elem_of_singleton in Hin.
  - intros Hno. unfold sigint. simpl. by rewrite for_each_silent.
Qed.

(** ** Frames of server-sent events *)

Lemma chars_append (a b : string) :
  String.list_ascii_of_string (a ++ b)
  = (String.list_ascii_of_string a ++ String.list_ascii_of_string b)%list.
Proof. induction a as [|c a IH]; simpl; [done|]. by rewrite IH. Qed.

Lemma chars_inj (a b : string) :
  String.list_ascii_of_string a = String.list_ascii_of_string b → a = b.
Proof.
  intros H. rewrite <- (String.string_of_list_ascii_of_string a),
    <- (String.string_of_list_ascii_of_string b). by rewrite H.
Qed.

Lemma append_assoc (a b c : string) : (a ++ b) ++ c = a ++ b ++ c.
Proof. apply chars_inj. by rewrite !chars_append, app_assoc. Qed.

Lemma append_cancel_r (a b s : string) : a ++ s = b ++ s → a = b.
Proof.
  intros H. apply chars_inj. apply (f_equal String.list_ascii_of_string) in H.
  rewrite !chars_append in H. by apply app_inv_tail in H.
Qed.

(** Two texts without line feed, each followed by a line feed, are told
    apart by the first line feed. *)
Lemma split_at_line_feed (l1 l2 r1 r2 : list Ascii.ascii) :
  LF ∉ l1 → LF ∉ l2 →
  (l1 ++ LF :: r1 = l2 ++ LF :: r2)%list → l1 = l2 ∧ r1 = r2.
Proof.
  revert l2. induction l1 as [|c l1 IH]; intros [|c' l2] H1 H2 Heq;
    simpl in Heq.
  - by injection Heq as ->.
  - injection Heq as <- _. destruct H2. by left.
  - injection Heq as -> _. destruct H1. by left.
  - injection Heq as -> Heq.
    destruct (IH l2) as [-> ->]; [| |done|done].
    + intros Hin. apply H1. by right.
    + intros Hin. apply H2. by right.
Qed.

Lemma sse_frame_by_name (event : option string) (body : string) :
  sse_frame event body
  = if String.eqb (event_name event) ""
    then "data: " ++ body ++ lf ++ lf
    else "event: " ++ event_name event ++ lf ++ "data: " ++ body ++ lf ++ lf.
Proof.
  unfold sse_frame, sse_payload, truthy, event_name.
  destruct event as [name|]; [|done].
  destruct (String.eqb name ""); cbn [negb]; [done|].
  by rewrite !append_assoc.
Qed.

(** X17.  For event names without line feed, the frame that [sendSSE]
    writes determines what was sent and nothing more: two frames are equal
    exactly when the bodies are equal and the event names are equal, where
    [null] and the empty name count as the same (both are sent without an
    [event:] line). *)
Theorem sse_frame_is_unambiguous (event1 event2 : option string)
    (body1 body2 : string) :
  no_line_feed (event_name event1) → no_line_feed (event_name event2) →
  sse_frame event1 body1 = sse_frame event2 body2 ↔
  event_name event1 = event_name event2 ∧ body1 = body2.
Proof.
  intros H1 H2. rewrite !sse_frame_by_name. split.
  - intros Heq. apply (f_equal String.list_ascii_of_string) in Heq.
    destruct (String.eqb (event_name event1) "") eqn:E1;
      destruct (String.eqb (event_name event2) "") eqn:E2;
      rewrite !chars_append in Heq; simpl in Heq.
    + apply String.eqb_eq in E1, E2. injection Heq as Heq.
      apply app_inv_tail in Heq. split; [congruence|by apply chars_inj].
    + discriminate.
    + discriminate.
    + injection Heq as Heq.
      apply split_at_line_feed in Heq as [Hname Hrest]; [|done|done].
      injection Hrest as Hrest. apply app_inv_tail in Hrest.
      split; by apply chars_inj.
  - by intros [-> ->].
Qed.

Lemma sse_frame_is_unambiguous_witness :
  sse_frame (Some "") "{}" = sse_frame None "{}" ↔
  event_name (Some "") = event_name None ∧ "{}" = "{}".
Proof.
  apply (sse_frame_is_unambiguous (Some "") None "{}" "{}");
    unfold no_line_feed; simpl; set_solver.
Defined.

(** X18.  The answer to tools/list names exactly the implemented tools, in
    their order and as often as they are given; every description is
    made from the name; and every entry carries the schema found under its
    name if that is truthy and the SDK's [ToolSchema] otherwise, so that
    with a truthy [ToolSchema] no tool is listed without a schema. *)
Theorem listed_tools_mirror_implemented (implementedTools : list string)
    (toolSchemas : string → Tools.value) (ToolSchema : Tools.value) :
  tool_name <$> list_tools implementedTools toolSchemas ToolSchema
    = implementedTools ∧
  ∀ tool, tool ∈ list_tools implementedTools toolSchemas ToolSchema →
    tool_description tool = "Tool named " ++ tool_name tool ∧
    tool_inputSchema tool
      = (if Tools.value_truthy (toolSchemas (tool_name tool))
         then toolSchemas (tool_name tool) else ToolSchema) ∧
    (Tools.value_truthy ToolSchema = true →
     Tools.value_truthy (tool_inputSchema tool) = true).
Proof.
  unfold list_tools. split.
  - rewrite <- list_fmap_compose. simpl. apply list_fmap_id.
  - intros tool Hin. apply list_elem_of_fmap in Hin as (toolName & -> & _).
    simpl. unfold Tools.or_else.
    destruct (Tools.value_truthy (toolSchemas toolName)) eqn:Ht; auto.
Qed.

End HttpExtra.
